(** * Real-time meeting translation: sentence splitter, segment reconciler,
      timeline merger and translation dispatcher

    Shallow embedding of
      packages/web/src/components/MeetingMinutes/MeetingMinutesSegmentSplitter.ts
      packages/web/src/components/MeetingMinutes/MeetingMinutesRealtimeTranslation.tsx
      packages/web/src/hooks/useRealtimeTranslation.ts

    JavaScript strings are sequences of UTF-16 code units; they are modelled
    as [list N].  React state is modelled by an explicit record that the
    state setters transform; an [async] function is cut at its [await] into
    the part that runs when the call is issued and the part that runs when
    the promise settles. *)

From Stdlib Require Import ZArith NArith QArith Ascii String DecimalNat.
From stdpp Require Import base option list sorting gmap.

Local Open Scope N_scope.

(** ** JavaScript strings *)

Abbreviation jsstring := (list N).

(** Code units of an ASCII literal. *)
Fixpoint js (s : string) : jsstring :=
  match s with
  | EmptyString => []
  | String a r => N_of_ascii a :: js r
  end.

(** [Boolean(s)] for a string: only the empty string is falsy. *)
Definition truthy (s : jsstring) : bool :=
  match s with [] => false | _ :: _ => true end.

(** [s || ''] for an array element that may be [undefined]. *)
Definition orEmpty (o : option jsstring) : jsstring := default [] o.

(** ECMAScript WhiteSpace and LineTerminator code units, the ones
    [String.prototype.trim] strips. *)
Definition isWhiteSpace (c : N) : bool :=
  (c =? 0x09) || (c =? 0x0A) || (c =? 0x0B) || (c =? 0x0C) || (c =? 0x0D)
  || (c =? 0x20) || (c =? 0xA0) || (c =? 0x1680)
  || ((0x2000 <=? c) && (c <=? 0x200A))
  || (c =? 0x2028) || (c =? 0x2029) || (c =? 0x202F) || (c =? 0x205F)
  || (c =? 0x3000) || (c =? 0xFEFF).

Fixpoint trimStart (s : jsstring) : jsstring :=
  match s with
  | [] => []
  | c :: r => if isWhiteSpace c then trimStart r else s
  end.

Definition trimEnd (s : jsstring) : jsstring := reverse (trimStart (reverse s)).

Definition trim (s : jsstring) : jsstring := trimEnd (trimStart s).

(** [a.join(sep)] on an array of strings. *)
Fixpoint join (sep : jsstring) (l : list jsstring) : jsstring :=
  match l with
  | [] => []
  | [s] => s
  | s :: r => s ++ sep ++ join sep r
  end.

(** [s.substring(p, q)] for [p <= q <= s.length]. *)
Definition substring (s : jsstring) (p q : nat) : jsstring :=
  take (q - p) (drop p s).

(** ** Completions

    The only abrupt completion the modelled code can produce is the
    TypeError of calling a method that does not exist. *)

Inductive completion (A : Type) : Type :=
  | Return (a : A)
  | ThrowTypeError.
Arguments Return {A} a.
Arguments ThrowTypeError {A}.

#[global] Instance completion_ret : MRet completion := λ A a, Return a.

#[global] Instance completion_bind : MBind completion := λ A B k c,
  match c with
  | Return a => k a
  | ThrowTypeError => ThrowTypeError
  end.

(** ** MeetingMinutesSegmentSplitter.ts *)

Definition ja_JP : jsstring := js "ja-JP".
Definition en_US : jsstring := js "en-US".

(** Own properties of the object literal [SENTENCE_DELIMITERS]:
    ja-JP has U+3002 (ideographic full stop) and U+003F (question mark),
    en-US has U+002E (full stop) and U+003F. *)
Definition SENTENCE_DELIMITERS : list (jsstring * list jsstring) :=
  [ (ja_JP, [[0x3002]; [0x3F]]);
    (en_US, [[0x2E]; [0x3F]]) ].

(** Property names an object literal inherits from [Object.prototype]. *)
Definition Object_prototype_keys : list jsstring :=
  [ js "constructor"; js "__defineGetter__"; js "__defineSetter__";
    js "hasOwnProperty"; js "__lookupGetter__"; js "__lookupSetter__";
    js "isPrototypeOf"; js "propertyIsEnumerable"; js "toString";
    js "valueOf"; js "__proto__"; js "toLocaleString" ].

(** [SENTENCE_DELIMITERS[key]] when it is one of the own (array) properties. *)
Fixpoint ownProperty (o : list (jsstring * list jsstring)) (key : jsstring)
  : option (list jsstring) :=
  match o with
  | [] => None
  | (k, v) :: r => if bool_decide (k = key) then Some v else ownProperty r key
  end.

(** [key in SENTENCE_DELIMITERS]: the [in] operator walks the prototype
    chain, so inherited names answer true as well. *)
Definition inSentenceDelimiters (key : jsstring) : bool :=
  match ownProperty SENTENCE_DELIMITERS key with
  | Some _ => true
  | None => bool_decide (key ∈ Object_prototype_keys)
  end.

Definition supportsSentenceTranslation (languageCode : option jsstring) : bool :=
  match languageCode with
  | None => false
  | Some code => inSentenceDelimiters code
  end.

Definition getSupportedLanguageCodes : list jsstring := SENTENCE_DELIMITERS.*1.

(** Characters of the class [/[.*+?^${}()|[\]\\]/]. *)
Definition regexSyntaxChars : jsstring := js ".*+?^${}()|[]\".

Definition backslash : N := 0x5C.

(** [delimiter.replace(/[.*+?^${}()|[\]\\]/g, '\\$&')] *)
Definition escapeDelimiter (delimiter : jsstring) : jsstring :=
  delimiter ≫= (λ c, if bool_decide (c ∈ regexSyntaxChars) then [backslash; c] else [c]).

(** Members of the character class [[body]] where [body] consists of plain
    characters and backslash identity escapes, which is what
    [escapedDelimiters.join('')] is for the delimiters above. *)
Fixpoint classMembers (body : jsstring) : list N :=
  match body with
  | [] => []
  | c :: r =>
      if bool_decide (c = backslash)
      then match r with
           | [] => []
           | d :: r' => d :: classMembers r'
           end
      else c :: classMembers r
  end.

Definition delimiterClass (delimiters : list jsstring) : list N :=
  classMembers (join [] (escapeDelimiter <$> delimiters)).

(** [text.split(pattern)] for a pattern [([...])] that matches exactly one
    code unit of the class [cls] and captures it.  This is the ECMAScript
    split loop: [p] is the start of the pending substring, [q] the position
    tried, [rest] the code units from [q] on.  A match at [q] pushes
    [substring(p, q)] and the capture and moves both to [q + 1]; at the end
    the remaining [substring(p, size)] is pushed. *)
Fixpoint splitLoop (cls : list N) (text rest : jsstring) (p q : nat)
  : list jsstring :=
  match rest with
  | [] => [substring text p (length text)]
  | c :: rest' =>
      if bool_decide (c ∈ cls)
      then substring text p q :: [c] :: splitLoop cls text rest' (S q) (S q)
      else splitLoop cls text rest' p (S q)
  end.

Definition split (cls : list N) (text : jsstring) : list jsstring :=
  splitLoop cls text text 0 0.

(** The loop [for (let i = 0; i < parts.length; i += 2)], two parts per
    round: [parts[i] || ''] and [parts[i + 1] || '']. *)
Fixpoint reconstruct (parts : list jsstring) : list jsstring :=
  match parts with
  | [] => []
  | sentence :: tl =>
      let delimiter := orEmpty (head tl) in
      let combinedSentence := sentence ++ delimiter in
      (if truthy (trim combinedSentence) then [combinedSentence] else [])
      ++ match tl with
         | [] => []
         | _ :: parts' => reconstruct parts'
         end
  end.

Definition nonBlank (sentence : jsstring) : bool :=
  bool_decide (0 < length (trim sentence))%nat.

Definition splitIntoSentences (text : jsstring) (languageCode : option jsstring)
  : completion (list jsstring) :=
  if negb (supportsSentenceTranslation languageCode)
  then Return (if truthy (trim text) then [text] else [])
  else
    match languageCode ≫= ownProperty SENTENCE_DELIMITERS with
    | None =>
        (* an inherited member is not an array: [delimiters.map] is undefined *)
        ThrowTypeError
    | Some delimiters =>
        let parts := split (delimiterClass delimiters) text in
        let sentences := reconstruct parts in
        Return (filter (λ sentence, nonBlank sentence = true) sentences)
    end.

Definition countSentences (text : jsstring) (languageCode : option jsstring)
  : completion nat :=
  sentences ← splitIntoSentences text languageCode; Return (length sentences).

(** The record [TranslationSegment]; an absent optional field and a field
    holding [undefined] are both [None]. *)
Record TranslationSegment : Type := mkTranslationSegment {
  text : jsstring;
  needsTranslation : bool;
  translation : option jsstring;
  lastTranslatedText : option jsstring;
  requestTimestamp : option Z
}.

Definition updateTranslationSegments (newText : jsstring)
    (languageCode : option jsstring) (existingSegments : list TranslationSegment)
  : completion (list TranslationSegment) :=
  newSentences ← splitIntoSentences newText languageCode;
  Return (imap (λ index sentence,
    match existingSegments !! index with
    | None =>
        (* new sentence *)
        {| text := sentence;
           needsTranslation := nonBlank sentence;
           translation := None;
           lastTranslatedText := None;
           requestTimestamp := None |}
    | Some existingSegment =>
        if bool_decide (text existingSegment = sentence)
        then existingSegment
        else
          {| text := sentence;
             needsTranslation := nonBlank sentence;
             translation := translation existingSegment;
             lastTranslatedText := lastTranslatedText existingSegment;
             requestTimestamp := requestTimestamp existingSegment |}
    end) newSentences).

(** ** useRealtimeTranslation.ts *)

(** How the promise of the translation collaborator
    ([useTranslationCore().translate], not part of these sources) settles. *)
Inductive Settlement : Type :=
  | Resolves (translated : option jsstring)
  | Rejects.

(** [translateRealtime]: the value its promise resolves to, and the console
    after it.  It never rejects: the [catch] turns a rejection into [null]. *)
Definition translateRealtime (sentence : jsstring) (collaborator : Settlement)
    (console : list jsstring) : option jsstring * list jsstring :=
  if negb (truthy (trim sentence)) then (None, console)
  else
    match collaborator with
    | Resolves translated => (translated, console)
    | Rejects => (None, console ++ [js "Translation failed:"])
    end.

(** ** MeetingMinutesRealtimeTranslation.tsx *)

Definition bidirectional : jsstring := js "bidirectional".

Definition getTranslationTarget (translationType : jsstring)
    (detectedLanguageCode : option jsstring)
    (primaryLanguage secondaryLanguage : jsstring) : jsstring :=
  if bool_decide (translationType ≠ bidirectional)
     || negb (truthy (default [] detectedLanguageCode))
  then secondaryLanguage
  else if bool_decide (detectedLanguageCode = Some primaryLanguage)
  then secondaryLanguage
  else if bool_decide (detectedLanguageCode = Some secondaryLanguage)
  then primaryLanguage
  else secondaryLanguage.

Inductive Source : Type := microphone | screen.

#[global] Instance Source_eq_dec : EqDecision Source.
Proof. solve_decision. Defined.

(** The fields of [Transcript] (package generative-ai-use-cases) that this
    component reads. *)
Record Transcript : Type := mkTranscript {
  speakerLabel : option jsstring;
  transcript : jsstring
}.

(** [startTime] and [endTime] are only stored and copied here. *)
Record RealtimeSegment : Type := mkRealtimeSegment {
  resultId : jsstring;
  source : Source;
  startTime : Q;
  endTime : Q;
  isPartial : bool;
  transcripts : list Transcript;
  sessionId : Z;
  languageCode : option jsstring;
  translationSegments : list TranslationSegment
}.

(** [{ ...segment, translationSegments }] *)
Definition withTranslationSegments (segment : RealtimeSegment)
    (segments : list TranslationSegment) : RealtimeSegment :=
  {| resultId := resultId segment;
     source := source segment;
     startTime := startTime segment;
     endTime := endTime segment;
     isPartial := isPartial segment;
     transcripts := transcripts segment;
     sessionId := sessionId segment;
     languageCode := languageCode segment;
     translationSegments := segments |}.

(** The identity of a timeline entry. *)
Definition segmentKey (segment : RealtimeSegment) : jsstring * Source :=
  (resultId segment, source segment).

(** [seg.resultId === segment.resultId && seg.source === segment.source] *)
Definition sameEntry (segment seg : RealtimeSegment) : Prop :=
  resultId seg = resultId segment ∧ source seg = source segment.

#[global] Instance sameEntry_dec segment seg : Decision (sameEntry segment seg).
Proof. unfold sameEntry. apply _. Defined.

Definition currentTextOf (newSegment : RealtimeSegment) : jsstring :=
  trim (join (js " ") (transcript <$> transcripts newSegment)).

(** The updater that [updateRealtimeSegments] passes to
    [setRealtimeSegments]; [list_find] is [findIndex] together with the
    element found, [None] standing for the index -1. *)
Definition updateRealtimeSegments (newSegment : RealtimeSegment)
    (prev : list RealtimeSegment) : completion (list RealtimeSegment) :=
  let existingIndex := list_find (sameEntry newSegment) prev in
  let currentText := currentTextOf newSegment in
  match existingIndex with
  | Some (existingIndex, currentSegment) =>
      updatedTranslationSegments ←
        updateTranslationSegments currentText (languageCode newSegment)
          (translationSegments currentSegment);
      Return (<[existingIndex :=
                 withTranslationSegments newSegment updatedTranslationSegments]> prev)
  | None =>
      translationSegments ←
        updateTranslationSegments currentText (languageCode newSegment) [];
      Return (prev ++ [withTranslationSegments newSegment translationSegments])
  end.

(** A run of upserts, oldest first; it stops at the first one that throws. *)
Fixpoint upsertAll (updates : list RealtimeSegment) (prev : list RealtimeSegment)
  : completion (list RealtimeSegment) :=
  match updates with
  | [] => Return prev
  | newSegment :: later =>
      next ← updateRealtimeSegments newSegment prev; upsertAll later next
  end.

(** The component state the claims are about: three [useState] cells and
    the browser console. *)
Record State : Type := mkState {
  realtimeSegments : list RealtimeSegment;
  latestRequestTimestamps : gmap jsstring Z;
  currentSessionId : Z;
  console : list jsstring
}.

Definition initialState : State :=
  {| realtimeSegments := [];
     latestRequestTimestamps := ∅;
     currentSessionId := 0;
     console := [] |}.

Definition setRealtimeSegments (f : list RealtimeSegment → list RealtimeSegment)
    (st : State) : State :=
  {| realtimeSegments := f (realtimeSegments st);
     latestRequestTimestamps := latestRequestTimestamps st;
     currentSessionId := currentSessionId st;
     console := console st |}.

Definition setLatestRequestTimestamps (f : gmap jsstring Z → gmap jsstring Z)
    (st : State) : State :=
  {| realtimeSegments := realtimeSegments st;
     latestRequestTimestamps := f (latestRequestTimestamps st);
     currentSessionId := currentSessionId st;
     console := console st |}.

Definition setCurrentSessionId (f : Z → Z) (st : State) : State :=
  {| realtimeSegments := realtimeSegments st;
     latestRequestTimestamps := latestRequestTimestamps st;
     currentSessionId := f (currentSessionId st);
     console := console st |}.

Definition setConsole (c : list jsstring) (st : State) : State :=
  {| realtimeSegments := realtimeSegments st;
     latestRequestTimestamps := latestRequestTimestamps st;
     currentSessionId := currentSessionId st;
     console := c |}.

(** [handleClear]: the calls into the microphone and screen-audio hooks and
    [onTranscriptChange] act on state outside this record. *)
Definition handleClear (st : State) : State :=
  setCurrentSessionId (λ _, 0%Z) (setRealtimeSegments (λ _, []) st).

(** The state change of [onClickExecStartTranscription]. *)
Definition onClickExecStartTranscription (st : State) : State :=
  setCurrentSessionId (λ prev, (prev + 1)%Z) st.

(** Decimal digits of an array index, as a template literal prints it. *)
Fixpoint digits (u : Decimal.uint) : jsstring :=
  match u with
  | Decimal.Nil => []
  | Decimal.D0 r => 0x30 :: digits r
  | Decimal.D1 r => 0x31 :: digits r
  | Decimal.D2 r => 0x32 :: digits r
  | Decimal.D3 r => 0x33 :: digits r
  | Decimal.D4 r => 0x34 :: digits r
  | Decimal.D5 r => 0x35 :: digits r
  | Decimal.D6 r => 0x36 :: digits r
  | Decimal.D7 r => 0x37 :: digits r
  | Decimal.D8 r => 0x38 :: digits r
  | Decimal.D9 r => 0x39 :: digits r
  end.

(** [`${segment.resultId}-${sentenceIndex}`] *)
Definition requestIdOf (segment : RealtimeSegment) (sentenceIndex : nat) : jsstring :=
  resultId segment ++ js "-" ++ digits (Nat.to_uint sentenceIndex).

(** [{ ...ts, requestTimestamp }] *)
Definition withRequestTimestamp (ts : TranslationSegment) (requestTimestamp : Z)
  : TranslationSegment :=
  {| text := text ts;
     needsTranslation := needsTranslation ts;
     translation := translation ts;
     lastTranslatedText := lastTranslatedText ts;
     requestTimestamp := Some requestTimestamp |}.

(** The object written on commit; [translation || undefined] turns the
    empty string into [undefined]. *)
Definition withTranslation (ts : TranslationSegment) (translation : jsstring)
    (translationSegment : TranslationSegment) : TranslationSegment :=
  {| text := text ts;
     needsTranslation := bool_decide (text ts ≠ text translationSegment);
     translation := if truthy translation then Some translation else None;
     lastTranslatedText := Some (text translationSegment);
     requestTimestamp := requestTimestamp ts |}.

(** The shape shared by both [setRealtimeSegments] updaters of
    [translateSentence]: rewrite sentence [sentenceIndex] of the entry with
    the identity of [segment], leave everything else as it is. *)
Definition updateSentence (segment : RealtimeSegment) (sentenceIndex : nat)
    (f : TranslationSegment → TranslationSegment)
    (prev : list RealtimeSegment) : list RealtimeSegment :=
  (λ seg,
     if bool_decide (¬ sameEntry segment seg) then seg
     else withTranslationSegments seg
            (imap (λ index ts, if bool_decide (index ≠ sentenceIndex) then ts else f ts)
                  (translationSegments seg))) <$> prev.

(** The local variables of one invocation of [translateSentence] that are
    alive across its [await].  [latestRequestTimestamps] there is the
    constant of the render in which [useCallback] created the callback: the
    state setter builds a new [Map] each time and never changes that one. *)
Record Invocation : Type := mkInvocation {
  inv_segment : RealtimeSegment;
  inv_sentenceIndex : nat;
  inv_translationSegment : TranslationSegment;
  inv_requestId : jsstring;
  inv_requestTimestamp : Z;
  inv_latestRequestTimestamps : gmap jsstring Z
}.

(** [translateSentence] up to the [await]: [now] is the value of
    [Date.now()], [closure] the [latestRequestTimestamps] the callback
    closed over. *)
Definition translateSentence_issue (closure : gmap jsstring Z) (now : Z)
    (segment : RealtimeSegment) (sentenceIndex : nat)
    (translationSegment : TranslationSegment) (st : State) : State * Invocation :=
  let requestId := requestIdOf segment sentenceIndex in
  let requestTimestamp := now in
  let st := setLatestRequestTimestamps (λ prev, <[requestId := requestTimestamp]> prev) st in
  let st := setRealtimeSegments
              (updateSentence segment sentenceIndex
                 (λ ts, withRequestTimestamp ts requestTimestamp)) st in
  (st, {| inv_segment := segment;
          inv_sentenceIndex := sentenceIndex;
          inv_translationSegment := translationSegment;
          inv_requestId := requestId;
          inv_requestTimestamp := requestTimestamp;
          inv_latestRequestTimestamps := closure |}).

(** [!currentLatestTimestamp || requestTimestamp >= currentLatestTimestamp] *)
Definition isLatestRequest (latestRequestTimestamps : gmap jsstring Z)
    (requestId : jsstring) (requestTimestamp : Z) : bool :=
  match latestRequestTimestamps !! requestId with
  | None => true
  | Some currentLatestTimestamp =>
      (currentLatestTimestamp =? 0)%Z || (currentLatestTimestamp <=? requestTimestamp)%Z
  end.

(** [translateSentence] from the [await] on, when the collaborator's
    promise has settled.  The function awaits [translateRealtime], which
    never rejects, so the outer [catch] is entered only if one of the
    helpers called before the [await] throws; the helpers of
    MeetingMinutesContextGenerator are lookups, sorts and joins that return
    for every argument, and that path is not part of the model. *)
Definition translateSentence_settle (inv : Invocation) (collaborator : Settlement)
    (st : State) : State :=
  let '(translation, console') :=
    translateRealtime (text (inv_translationSegment inv)) collaborator (console st) in
  let st := setConsole console' st in
  match translation with
  | Some translation =>
      if isLatestRequest (inv_latestRequestTimestamps inv)
           (inv_requestId inv) (inv_requestTimestamp inv)
      then setRealtimeSegments
             (updateSentence (inv_segment inv) (inv_sentenceIndex inv)
                (λ ts, withTranslation ts translation (inv_translationSegment inv))) st
      else st
  | None => st
  end.

(** The sentences one dispatcher tick picks from an entry. *)
Definition sentencesToTranslate (segment : RealtimeSegment) : list TranslationSegment :=
  filter (λ translationSegment,
            needsTranslation translationSegment = true
            ∧ truthy (trim (text translationSegment)) = true)
         (translationSegments segment).

(** ** The specification's description of the splitter *)

(** [span] is whitespace-only or empty. *)
Definition blank (span : jsstring) : bool := forallb isWhiteSpace span.

Definition emitSpan (span : jsstring) : list jsstring :=
  if blank span then [] else [span].

(** The scan of the specification: accumulate a span, close it (terminator
    included) at every terminator, emit the unterminated remainder at the
    end, and drop the spans that are blank. *)
Fixpoint scanSentences (terminators : list N) (span text : jsstring)
  : list jsstring :=
  match text with
  | [] => emitSpan span
  | c :: rest =>
      if bool_decide (c ∈ terminators)
      then emitSpan (span ++ [c]) ++ scanSentences terminators [] rest
      else scanSentences terminators (span ++ [c]) rest
  end.

(** The terminator characters listed for a language. *)
Definition terminatorsOf (languageCode : jsstring) : list N :=
  default [] (join [] <$> ownProperty SENTENCE_DELIMITERS languageCode).

(** The primary subtag of a language tag: what precedes the first hyphen. *)
Fixpoint primarySubtag (code : jsstring) : jsstring :=
  match code with
  | [] => []
  | c :: r => if (c =? 0x2D) then [] else c :: primarySubtag r
  end.

(** [supportsLanguage] as the specification words it: the tag itself is a
    supported tag, or else its primary subtag is. *)
Definition supportsLanguage_spec (code : option jsstring) : bool :=
  match code with
  | None => false
  | Some code =>
      bool_decide (code ∈ getSupportedLanguageCodes)
      || bool_decide (primarySubtag code ∈ getSupportedLanguageCodes)
  end.

(** ** Data of the scenarios *)

(** U+3053 U+3093 U+306B U+3061 U+306F U+3002 (konnichiwa, full stop) *)
Definition sentence_konnichiwa : jsstring :=
  [0x3053; 0x3093; 0x306B; 0x3061; 0x306F; 0x3002].

(** U+4ECA U+65E5 U+306F U+6674 U+308C U+3067 U+3059 U+3002
    (kyou wa hare desu, full stop) *)
Definition sentence_hare : jsstring :=
  [0x4ECA; 0x65E5; 0x306F; 0x6674; 0x308C; 0x3067; 0x3059; 0x3002].

(** "Bonjour. Ça va?" with U+00C7 for the C with cedilla. *)
Definition text_bonjour : jsstring := js "Bonjour. " ++ [0xC7] ++ js "a va?".

Definition fr_FR : jsstring := js "fr-FR".

(** [{text:"A.", needsTranslation:false, translation:"x"}] and
    [{text:"B.", needsTranslation:false, translation:"y"}] *)
Definition segment_A : TranslationSegment :=
  {| text := js "A."; needsTranslation := false; translation := Some (js "x");
     lastTranslatedText := None; requestTimestamp := None |}.

Definition segment_B : TranslationSegment :=
  {| text := js "B."; needsTranslation := false; translation := Some (js "y");
     lastTranslatedText := None; requestTimestamp := None |}.

(** One microphone entry with the single pending sentence "Hello.". *)
Definition sentence_hello : TranslationSegment :=
  {| text := js "Hello."; needsTranslation := true; translation := None;
     lastTranslatedText := None; requestTimestamp := None |}.

Definition entry_hello : RealtimeSegment :=
  {| resultId := js "r"; source := microphone; startTime := 0; endTime := 1;
     isPartial := true;
     transcripts := [ {| speakerLabel := None; transcript := js "Hello." |} ];
     sessionId := 1; languageCode := Some en_US;
     translationSegments := [sentence_hello] |}.

Definition state_hello : State :=
  {| realtimeSegments := [entry_hello]; latestRequestTimestamps := ∅;
     currentSessionId := 1; console := [] |}.

(** What a dispatcher tick passes to [translateSentence] for sentence 0 of
    entry 0 of the current timeline. *)
Definition dispatchFirst (closure : gmap jsstring Z) (now : Z) (st : State)
  : State * Invocation :=
  let segment := default entry_hello (realtimeSegments st !! 0%nat) in
  let sentence := default sentence_hello (translationSegments segment !! 0%nat) in
  translateSentence_issue closure now segment 0 sentence st.

(** Request R1 is issued at t=100 and R2 at t=200 for the same sentence;
    [closure1] and [closure2] are the maps the two invocations closed over.
    R2's reply ("r2") arrives first, R1's reply ("r1") last. *)
Definition raceLateR1 (closure1 closure2 : gmap jsstring Z) : State :=
  let '(st1, R1) := dispatchFirst closure1 100 state_hello in
  let '(st2, R2) := dispatchFirst closure2 200 st1 in
  let st3 := translateSentence_settle R2 (Resolves (Some (js "r2"))) st2 in
  translateSentence_settle R1 (Resolves (Some (js "r1"))) st3.

(** The side index as it stands when R1's late reply is handled. *)
Definition raceSideIndexAtLastReply : gmap jsstring Z :=
  let '(st1, R1) := dispatchFirst ∅ 100 state_hello in
  let '(st2, R2) := dispatchFirst ∅ 200 st1 in
  latestRequestTimestamps (translateSentence_settle R2 (Resolves (Some (js "r2"))) st2).

Definition committedTranslation (st : State) : option jsstring :=
  seg ← realtimeSegments st !! 0%nat;
  ts ← translationSegments seg !! 0%nat;
  translation ts.

(** A state whose side index holds one entry. *)
Definition state_indexed : State :=
  {| realtimeSegments := [entry_hello];
     latestRequestTimestamps := {[ js "r-0" := 100%Z ]};
     currentSessionId := 1; console := [] |}.

(** Sentence 1 of the reconciled list for the new text "A. C.": the split
    keeps the space that follows the first full stop. *)
Definition segment_C : TranslationSegment :=
  {| text := js " C."; needsTranslation := true; translation := Some (js "y");
     lastTranslatedText := None; requestTimestamp := None |}.

(** A previous list whose texts are what "A. B." splits into. *)
Definition segment_B' : TranslationSegment :=
  {| text := js " B."; needsTranslation := true; translation := Some (js "y");
     lastTranslatedText := Some (js " B"); requestTimestamp := Some 7%Z |}.

(** A revision of [entry_hello] and an entry of the other source. *)
Definition entry_hello_revised : RealtimeSegment :=
  {| resultId := js "r"; source := microphone; startTime := 0; endTime := 2;
     isPartial := false;
     transcripts := [ {| speakerLabel := None; transcript := js "Hello. Bye." |} ];
     sessionId := 1; languageCode := Some en_US;
     translationSegments := [] |}.

Definition entry_screen : RealtimeSegment :=
  {| resultId := js "r"; source := screen; startTime := 0; endTime := 1;
     isPartial := true;
     transcripts := [ {| speakerLabel := None; transcript := js "Hi" |} ];
     sessionId := 1; languageCode := None;
     translationSegments := [] |}.

(** One whole invocation of [translateSentence] with nothing interleaved. *)
Definition translateSentence (closure : gmap jsstring Z) (now : Z)
    (segment : RealtimeSegment) (sentenceIndex : nat)
    (translationSegment : TranslationSegment) (collaborator : Settlement)
    (st : State) : State :=
  let '(st1, inv) :=
    translateSentence_issue closure now segment sentenceIndex translationSegment st in
  translateSentence_settle inv collaborator st1.

(** The timeline after the three upserts: the microphone entry, the screen
    entry with the same result id, and a revision of the microphone entry. *)
Definition timeline_three : list RealtimeSegment :=
  Eval vm_compute in
    match upsertAll [entry_hello; entry_screen; entry_hello_revised] [] with
    | Return entries => entries
    | ThrowTypeError => []
    end.

(** ** The rest of MeetingMinutesSegmentSplitter.ts *)

(** [s.startsWith(sub)] and [s.includes(sub)] *)
Fixpoint startsWith (s sub : jsstring) : bool :=
  match sub, s with
  | [], _ => true
  | _ :: _, [] => false
  | d :: sub', c :: s' => (c =? d) && startsWith s' sub'
  end.

Fixpoint includes (s sub : jsstring) : bool :=
  startsWith s sub
  || match s with
     | [] => false
     | _ :: s' => includes s' sub
     end.

(** What [getSentenceDelimiters] returns: the array of an own property,
    [null], or, for an inherited name, that member of [Object.prototype]. *)
Inductive DelimitersResult : Type :=
  | DelimiterArray (delimiters : list jsstring)
  | DelimitersNull
  | PrototypeMember (key : jsstring).

Definition getSentenceDelimiters (languageCode : jsstring) : DelimitersResult :=
  if negb (supportsSentenceTranslation (Some languageCode)) then DelimitersNull
  else
    match ownProperty SENTENCE_DELIMITERS languageCode with
    | Some delimiters => DelimiterArray delimiters
    | None => PrototypeMember languageCode
    end.

Definition containsSentenceDelimiters (text : jsstring)
    (languageCode : option jsstring) : completion bool :=
  if negb (supportsSentenceTranslation languageCode) then Return false
  else
    match languageCode ≫= ownProperty SENTENCE_DELIMITERS with
    | None =>
        (* an inherited member has no [some] method *)
        ThrowTypeError
    | Some delimiters =>
        Return (existsb (λ delimiter, includes text delimiter) delimiters)
    end.

(** ** The rest of useRealtimeTranslation.ts *)

(** [currentText.trim() !== (lastTranslatedText || '').trim()] *)
Definition hasTextChanged (currentText : jsstring)
    (lastTranslatedText : option jsstring) : bool :=
  bool_decide (trim currentText ≠ trim (default [] lastTranslatedText)).

(** [availableModels], for the two lists of [MODELS]. *)
Definition availableModels (modelIds lightModelIds : list jsstring) : list jsstring :=
  let remainingModels := filter (λ id, id ∉ lightModelIds) modelIds in
  lightModelIds ++ remainingModels.

(** ** Array.prototype.sort

    The sort is stable, so for a comparator that is a strict weak order its
    result is determined: [before a b] says that the comparator is negative
    on [(a, b)].  Insertion from the right keeps equal elements in their
    original order. *)
Fixpoint insertSorted {A} (before : A → A → bool) (x : A) (l : list A) : list A :=
  match l with
  | [] => [x]
  | y :: r => if before y x then y :: insertSorted before x r else x :: l
  end.

Fixpoint sortBy {A} (before : A → A → bool) (l : list A) : list A :=
  match l with
  | [] => []
  | x :: r => insertSorted before x (sortBy before r)
  end.

Definition Qltb (a b : Q) : bool :=
  match (a ?= b)%Q with Lt => true | _ => false end.

(** The comparator [(a, b) => a.startTime - b.startTime].  Start times are
    finite numbers, hence rationals, and the difference of two finite
    doubles has the sign of their exact difference. *)
Definition byStartTime (a b : RealtimeSegment) : bool :=
  Qltb (startTime a) (startTime b).

(** The comparator of the sorts in the component: by session id, then by
    start time within a session. *)
Definition bySessionThenTime (a b : RealtimeSegment) : bool :=
  if bool_decide (sessionId a ≠ sessionId b)
  then (sessionId a <? sessionId b)%Z
  else Qltb (startTime a) (startTime b).

(** [[...realtimeSegments].sort(...)], the order of the rendered timeline
    and of [realtimeText]. *)
Definition sortedSegments (realtimeSegments : list RealtimeSegment)
  : list RealtimeSegment :=
  sortBy bySessionThenTime realtimeSegments.

(** ** MeetingMinutesContextGenerator.ts *)

Definition LANGUAGE_NAME_MAPPING : list (jsstring * jsstring) :=
  [ (js "ja-JP", js "Japanese"); (js "en-US", js "English");
    (js "en-GB", js "English"); (js "zh-CN", js "Chinese");
    (js "zh-TW", js "Chinese"); (js "ko-KR", js "Korean");
    (js "th-TH", js "Thai"); (js "vi-VN", js "Vietnamese");
    (js "ja", js "Japanese"); (js "en", js "English");
    (js "zh", js "Chinese"); (js "ko", js "Korean");
    (js "th", js "Thai"); (js "vi", js "Vietnamese") ].

(** The value a property read on an object literal with string values
    yields: an own string, an inherited member of [Object.prototype]
    (a function or, for [__proto__], the prototype itself), or
    [undefined]. *)
Inductive PropertyValue : Type :=
  | StringValue (s : jsstring)
  | InheritedValue (key : jsstring)
  | UndefinedValue.

Fixpoint ownString (o : list (jsstring * jsstring)) (key : jsstring)
  : option jsstring :=
  match o with
  | [] => None
  | (k, v) :: r => if bool_decide (k = key) then Some v else ownString r key
  end.

Definition getProperty (o : list (jsstring * jsstring)) (key : jsstring)
  : PropertyValue :=
  match ownString o key with
  | Some v => StringValue v
  | None =>
      if bool_decide (key ∈ Object_prototype_keys)
      then InheritedValue key else UndefinedValue
  end.

(** Truthiness of a property value: objects and functions are truthy. *)
Definition truthyValue (v : PropertyValue) : bool :=
  match v with
  | StringValue s => truthy s
  | InheritedValue _ => true
  | UndefinedValue => false
  end.

(** [getLanguageNameFromCode]; [languageCode.split('-')[0]] is what
    precedes the first hyphen.  The result is a string except when the
    lookup hits an inherited member. *)
Definition getLanguageNameFromCode (languageCode : jsstring) : PropertyValue :=
  if truthyValue (getProperty LANGUAGE_NAME_MAPPING languageCode)
  then getProperty LANGUAGE_NAME_MAPPING languageCode
  else
    let languageFamily := primarySubtag languageCode in
    if truthyValue (getProperty LANGUAGE_NAME_MAPPING languageFamily)
    then getProperty LANGUAGE_NAME_MAPPING languageFamily
    else StringValue languageCode.

(** [segment => !segment.isPartial && segment.transcripts.length > 0] *)
Definition finalWithText (segment : RealtimeSegment) : Prop :=
  isPartial segment = false ∧ transcripts segment ≠ [].

#[global] Instance finalWithText_dec segment : Decision (finalWithText segment).
Proof. unfold finalWithText. apply _. Defined.

(** [segment.transcripts.map((transcript) => transcript.transcript).join(' ')] *)
Definition segmentText (segment : RealtimeSegment) : jsstring :=
  join (js " ") (transcript <$> transcripts segment).

Definition extractTranscriptText (segments : list RealtimeSegment) : jsstring :=
  trim (join (js " ")
          (segmentText <$> sortBy byStartTime (filter finalWithText segments))).

Definition shouldGenerateContext (isTranslationEnabled isRecording : bool)
    (segments : list RealtimeSegment) : bool :=
  if negb isTranslationEnabled || negb isRecording
     || bool_decide (length segments = 0%nat)
  then false
  else bool_decide (50 ≤ length (extractTranscriptText segments))%nat.

(** [a.slice(start)] for an integer [start]: a negative start counts from
    the end. *)
Definition slice {A} (l : list A) (start : Z) : list A :=
  let len := Z.of_nat (length l) in
  let k := if (start <? 0)%Z then Z.max (len + start) 0 else Z.min start len in
  drop (Z.to_nat k) l.

(** [getRecentSegmentsContext]; its callers leave [maxSegments] at the
    default 10. *)
Definition getRecentSegmentsContext (segments : list RealtimeSegment)
    (maxSegments : Z) : jsstring :=
  let recentSegments :=
    slice (sortBy byStartTime (filter finalWithText segments)) (- maxSegments) in
  trim (join (js " ") (segmentText <$> recentSegments)).

(** ** MeetingMinutesTranscription.tsx

    The transcription-only tab keeps the same keyed timeline without
    translation segments. *)
Module Transcription.

Record TranscriptionSegment : Type := mkTranscriptionSegment {
  resultId : jsstring;
  source : Source;
  startTime : Q;
  endTime : Q;
  isPartial : bool;
  transcripts : list Transcript;
  sessionId : Z
}.

Definition segmentKey (segment : TranscriptionSegment) : jsstring * Source :=
  (resultId segment, source segment).

Definition sameEntry (segment seg : TranscriptionSegment) : Prop :=
  resultId seg = resultId segment ∧ source seg = source segment.

#[global] Instance sameEntry_dec segment seg : Decision (sameEntry segment seg).
Proof. unfold sameEntry. apply _. Defined.

(** The updater of [updateTranscriptionSegments]. *)
Definition updateTranscriptionSegments (newSegment : TranscriptionSegment)
    (prev : list TranscriptionSegment) : list TranscriptionSegment :=
  match list_find (sameEntry newSegment) prev with
  | Some (existingIndex, _) => <[existingIndex := newSegment]> prev
  | None => prev ++ [newSegment]
  end.

Definition langMapping : list (jsstring * jsstring) :=
  [ (js "ja", js "ja-JP"); (js "en", js "en-US"); (js "zh", js "zh-CN");
    (js "ko", js "ko-KR"); (js "th", js "th-TH"); (js "vi", js "vi-VN") ].

(** [langMapping[settingsLang] || 'auto'] *)
Definition getTranscriptionLanguageFromSettings (settingsLang : jsstring)
  : PropertyValue :=
  if truthyValue (getProperty langMapping settingsLang)
  then getProperty langMapping settingsLang
  else StringValue (js "auto").

End Transcription.

(** ** lambda/utils/fileNameUtils.ts *)

(** [s.lastIndexOf(c)] for one code unit, [None] standing for -1. *)
Fixpoint lastIndexOf (s : jsstring) (c : N) : option nat :=
  match s with
  | [] => None
  | d :: r =>
      match lastIndexOf r c with
      | Some i => Some (S i)
      | None => if (d =? c) then Some 0%nat else None
      end
  end.

(** The class [[a-zA-Z0-9\s\-()[\]]]; [\s] is the set [trim] strips. *)
Definition isAllowedInName (c : N) : bool :=
  ((0x61 <=? c) && (c <=? 0x7A)) || ((0x41 <=? c) && (c <=? 0x5A))
  || ((0x30 <=? c) && (c <=? 0x39)) || isWhiteSpace c
  || (c =? 0x2D) || (c =? 0x28) || (c =? 0x29) || (c =? 0x5B) || (c =? 0x5D).

Definition underscore : N := 0x5F.

(** [name.replace(/[^a-zA-Z0-9\s\-()[\]]/g, '_')]: without the [u] flag the
    pattern is tried at every code unit. *)
Definition replaceDisallowed (name : jsstring) : jsstring :=
  (λ c, if isAllowedInName c then c else underscore) <$> name.

(** The local [nameWithoutExt]:
    [lastDotIndex > 0 ? filename.substring(0, lastDotIndex) : filename]. *)
Definition nameWithoutExt (filename : jsstring) : jsstring :=
  match lastIndexOf filename 0x2E with
  | Some (S i) => substring filename 0 (S i)
  | _ => filename
  end.

Section FileNameUtils.

(** [crypto.createHash('md5').update(filename).digest('hex')], a function of
    the file name computed outside this code. *)
Variable md5hex : jsstring → jsstring.

Definition convertToSafeFilename (filename : jsstring) : jsstring :=
  let safeName := replaceDisallowed (nameWithoutExt filename) in
  if bool_decide (safeName ≠ nameWithoutExt filename)
  then
    let hash := substring (md5hex filename) 0 8 in
    safeName ++ [underscore] ++ hash
  else safeName.

End FileNameUtils.

(** ** Runs of the translation component *)

(** One state change of the component: an upsert that returns, the two
    halves of a [translateSentence] invocation, a recording start, a clear. *)
Inductive step : State → State → Prop :=
  | step_upsert (newSegment : RealtimeSegment) (st : State)
      (next : list RealtimeSegment) :
      updateRealtimeSegments newSegment (realtimeSegments st) = Return next →
      step st (setRealtimeSegments (λ _, next) st)
  | step_issue (closure : gmap jsstring Z) (now : Z) (segment : RealtimeSegment)
      (sentenceIndex : nat) (translationSegment : TranslationSegment) (st : State) :
      step st (translateSentence_issue closure now segment sentenceIndex
                 translationSegment st).1
  | step_settle (inv : Invocation) (collaborator : Settlement) (st : State) :
      step st (translateSentence_settle inv collaborator st)
  | step_start (st : State) :
      step st (onClickExecStartTranscription st)
  | step_clear (st : State) :
      step st (handleClear st).

(** The sentences of an entry are the split of the entry's own text. *)
Definition entryConsistent (segment : RealtimeSegment) : Prop :=
  splitIntoSentences (currentTextOf segment) (languageCode segment)
  = Return (text <$> translationSegments segment).

(** The code units of a text that are not whitespace. *)
Definition nonWhiteSpace (s : jsstring) : jsstring :=
  filter (λ c, isWhiteSpace c = false) s.

(** A sentence closed by a terminator: no terminator before its last code
    unit, a terminator as its last. *)
Definition terminatedBy (terminators : list N) (sentence : jsstring) : Prop :=
  ∃ body t, sentence = body ++ [t] ∧ t ∈ terminators
            ∧ Forall (λ c, c ∉ terminators) body.

(** The pending sentence of [entry_screen] and the entry as an upsert
    stores it. *)
Definition sentence_hi : TranslationSegment :=
  {| text := js "Hi"; needsTranslation := true; translation := None;
     lastTranslatedText := None; requestTimestamp := None |}.

Definition entry_screen_stored : RealtimeSegment :=
  withTranslationSegments entry_screen [sentence_hi].

(** [a] may stay in front of [b]: the comparator does not put [b] strictly
    before [a]. *)
Definition notAfter {A} (before : A → A → bool) : relation A :=
  λ a b, before b a = false.

(** A final entry of the same session that starts later. *)
Definition entry_later : RealtimeSegment :=
  {| resultId := js "s"; source := microphone; startTime := 5; endTime := 6;
     isPartial := false;
     transcripts := [ {| speakerLabel := None; transcript := js "Thanks." |} ];
     sessionId := 1; languageCode := Some en_US;
     translationSegments := [] |}.

(** A partial transcription segment and its final revision. *)
Definition transcription_partial : Transcription.TranscriptionSegment :=
  {| Transcription.resultId := js "r"; Transcription.source := microphone;
     Transcription.startTime := 0; Transcription.endTime := 1;
     Transcription.isPartial := true;
     Transcription.transcripts :=
       [ {| speakerLabel := None; transcript := js "Hel" |} ];
     Transcription.sessionId := 1 |}.

Definition transcription_final : Transcription.TranscriptionSegment :=
  {| Transcription.resultId := js "r"; Transcription.source := microphone;
     Transcription.startTime := 0; Transcription.endTime := 2;
     Transcription.isPartial := false;
     Transcription.transcripts :=
       [ {| speakerLabel := None; transcript := js "Hello." |} ];
     Transcription.sessionId := 1 |}.






(** * Properties *)

(** ** Whitespace and trimming *)

Lemma blank_Forall (s : jsstring) :
  blank s = true ↔ Forall (λ c, isWhiteSpace c = true) s.
Proof.
  unfold blank. induction s as [|c s IH]; cbn [forallb].
  - split; [constructor | done].
  - rewrite andb_true_iff, Forall_cons, IH. done.
Qed.

Lemma blank_app (s t : jsstring) : blank (s ++ t) = blank s && blank t.
Proof. unfold blank. apply forallb_app. Qed.

Lemma blank_reverse (s : jsstring) : blank (reverse s) = blank s.
Proof.
  apply eq_true_iff_eq. rewrite !blank_Forall. apply Forall_reverse.
Qed.

Lemma blank_trimStart (s : jsstring) : blank (trimStart s) = blank s.
Proof.
  induction s as [|c s IH]; [done|]. cbn [trimStart].
  destruct (isWhiteSpace c) eqn:Hc; [|done].
  rewrite IH. unfold blank. cbn [forallb]. by rewrite Hc.
Qed.

Lemma trimStart_nil (s : jsstring) : trimStart s = [] ↔ blank s = true.
Proof.
  induction s as [|c s IH]; [done|]. unfold blank in *. cbn [trimStart forallb].
  destruct (isWhiteSpace c); cbn [andb]; [done|]. split; done.
Qed.

Lemma trim_nil (s : jsstring) : trim s = [] ↔ blank s = true.
Proof.
  unfold trim, trimEnd.
  rewrite <- (blank_trimStart s), <- (blank_reverse (trimStart s)), <- trimStart_nil.
  split; [|by intros ->].
  intros H. apply (f_equal reverse) in H. by rewrite reverse_involutive in H.
Qed.

Lemma truthy_trim (s : jsstring) : truthy (trim s) = negb (blank s).
Proof.
  destruct (blank s) eqn:Hb.
  - apply trim_nil in Hb. by rewrite Hb.
  - destruct (trim s) eqn:Ht; [|done].
    apply trim_nil in Ht. congruence.
Qed.

Lemma nonBlank_blank (s : jsstring) : nonBlank s = negb (blank s).
Proof.
  rewrite <- truthy_trim. unfold nonBlank.
  destruct (trim s) as [|c t]; cbn [truthy length].
  - apply bool_decide_eq_false_2. lia.
  - apply bool_decide_eq_true_2. lia.
Qed.

(** ** Target-language resolution *)

(** C7. In bidirectional mode with a detected language (a non-empty code),
    the target is the secondary language when the detected language is the
    primary one, the primary language when it is the secondary one, and the
    secondary language when it is neither; with no language detected (the
    code is [undefined] or empty) it is the secondary language; in any other
    mode it is the secondary language whatever was detected.  With primary
    en-US and secondary ja-JP: en-US gives ja-JP, ja-JP gives en-US and
    fr-FR gives ja-JP. *)
Theorem getTranslationTarget_rule
    (translationType : jsstring) (detected : option jsstring)
    (primary secondary : jsstring) :
  (∀ d, translationType = bidirectional → detected = Some d → d ≠ [] →
     (d = primary →
        getTranslationTarget translationType detected primary secondary = secondary)
     ∧ (d = secondary →
        getTranslationTarget translationType detected primary secondary = primary)
     ∧ (d ≠ primary → d ≠ secondary →
        getTranslationTarget translationType detected primary secondary = secondary))
  ∧ (translationType = bidirectional → detected = None ∨ detected = Some [] →
     getTranslationTarget translationType detected primary secondary = secondary)
  ∧ (translationType ≠ bidirectional →
     getTranslationTarget translationType detected primary secondary = secondary)
  ∧ getTranslationTarget bidirectional (Some en_US) en_US ja_JP = ja_JP
  ∧ getTranslationTarget bidirectional (Some ja_JP) en_US ja_JP = en_US
  ∧ getTranslationTarget bidirectional (Some fr_FR) en_US ja_JP = ja_JP.
Proof.
  assert (Hb : bool_decide (bidirectional ≠ bidirectional) = false)
    by (apply bool_decide_eq_false_2; intros H; by apply H).
  split_and!; try reflexivity.
  - intros d -> -> Hd. unfold getTranslationTarget. rewrite Hb.
    assert (Ht : truthy (default [] (Some d)) = true) by (by destruct d).
    rewrite Ht. cbn [negb orb].
    split_and!.
    + intros ->. by rewrite bool_decide_eq_true_2.
    + intros ->. destruct (decide (secondary = primary)) as [->|Hne].
      * by rewrite bool_decide_eq_true_2.
      * rewrite (bool_decide_eq_false_2 (Some secondary = Some primary)) by congruence.
        by rewrite bool_decide_eq_true_2.
    + intros H1 H2.
      rewrite (bool_decide_eq_false_2 (Some d = Some primary)) by congruence.
      by rewrite (bool_decide_eq_false_2 (Some d = Some secondary)) by congruence.
  - intros -> [-> | ->]; unfold getTranslationTarget; by rewrite Hb.
  - intros H. unfold getTranslationTarget. by rewrite bool_decide_eq_true_2.
Qed.

Lemma getTranslationTarget_rule_witness :
  getTranslationTarget bidirectional (Some ja_JP) en_US ja_JP = en_US
  ∧ getTranslationTarget bidirectional None en_US ja_JP = ja_JP
  ∧ getTranslationTarget (js "unidirectional") (Some ja_JP) en_US ja_JP = ja_JP.
Proof.
  split_and!.
  - destruct (getTranslationTarget_rule bidirectional (Some ja_JP) en_US ja_JP)
      as [H _].
    destruct (H ja_JP eq_refl eq_refl) as (_ & H2 & _); [discriminate|].
    exact (H2 eq_refl).
  - destruct (getTranslationTarget_rule bidirectional None en_US ja_JP)
      as (_ & H & _).
    exact (H eq_refl (or_introl eq_refl)).
  - destruct (getTranslationTarget_rule (js "unidirectional") (Some ja_JP) en_US ja_JP)
      as (_ & _ & H & _).
    apply H. discriminate.
Defined.

(** ** Clearing *)

Lemma handleClear_keeps_side_index :
  latestRequestTimestamps (handleClear state_indexed) !! js "r-0" = Some 100%Z
  ∧ latestRequestTimestamps (handleClear state_indexed) ≠ ∅.
Proof.
  assert (H : latestRequestTimestamps (handleClear state_indexed) !! js "r-0" = Some 100%Z)
    by (vm_compute; reflexivity).
  split; [exact H|]. intros E. rewrite E in H. by rewrite lookup_empty in H.
Qed.

(** C8, amended.  After [handleClear] the timeline is empty and the session
    id is 0; the side index of latest request timestamps is the one from
    before the clear. *)
Theorem handleClear_resets (st : State) :
  realtimeSegments (handleClear st) = []
  ∧ currentSessionId (handleClear st) = 0%Z
  ∧ latestRequestTimestamps (handleClear st) = latestRequestTimestamps st.
Proof. done. Qed.

(** ** The sentence splitter *)

Lemma ownProperty_SENTENCE_DELIMITERS (code : jsstring) :
  (code = ja_JP ∧ ownProperty SENTENCE_DELIMITERS code = Some [[0x3002]; [0x3F]])
  ∨ (code = en_US ∧ ownProperty SENTENCE_DELIMITERS code = Some [[0x2E]; [0x3F]])
  ∨ (code ≠ ja_JP ∧ code ≠ en_US ∧ ownProperty SENTENCE_DELIMITERS code = None).
Proof.
  unfold SENTENCE_DELIMITERS. cbn [ownProperty].
  destruct (decide (ja_JP = code)) as [<-|H1].
  - left. by rewrite bool_decide_eq_true_2.
  - rewrite (bool_decide_eq_false_2 (ja_JP = code)) by done.
    destruct (decide (en_US = code)) as [<-|H2].
    + right; left. by rewrite bool_decide_eq_true_2.
    + right; right. by rewrite (bool_decide_eq_false_2 (en_US = code)) by done.
Qed.

(** The three cases of a language code: ja-JP, en-US, or no own property. *)
Ltac case_language code :=
  destruct (ownProperty_SENTENCE_DELIMITERS code)
    as [[-> ->] | [[-> ->] | (? & ? & ->)]].

Lemma primarySubtag_no_hyphen (code : jsstring) : 0x2D ∉ primarySubtag code.
Proof.
  induction code as [|c r IH]; cbn [primarySubtag].
  - apply not_elem_of_nil.
  - destruct (c =? 0x2D) eqn:Hc; [apply not_elem_of_nil|].
    apply N.eqb_neq in Hc. rewrite elem_of_cons. intros [E|E]; [congruence|done].
Qed.

Lemma primarySubtag_unsupported (code : jsstring) :
  primarySubtag code ∉ getSupportedLanguageCodes.
Proof.
  pose proof (primarySubtag_no_hyphen code) as Hh.
  intros Hin. apply Hh.
  assert (Hall : Forall (λ tag : jsstring, 0x2D ∈ tag) getSupportedLanguageCodes).
  { repeat constructor; apply (bool_decide_unpack _); by vm_compute. }
  rewrite Forall_forall in Hall. by apply Hall.
Qed.

(** No reduction to the primary subtag takes place. *)
Example supportsSentenceTranslation_no_fallback :
  supportsSentenceTranslation <$> [Some (js "ja"); Some (js "en"); Some (js "en-GB");
                                   Some (js "fr-FR"); Some (js "fr")]
  = [false; false; false; false; false].
Proof. reflexivity. Qed.

Lemma own_codes_not_inherited :
  (ja_JP ∉ Object_prototype_keys) ∧ (en_US ∉ Object_prototype_keys).
Proof. split; apply (bool_decide_unpack _); by vm_compute. Qed.

(** Off the names inherited from [Object.prototype] the key test answers as
    the exact-then-primary-subtag match does, and that is true exactly for
    the tags ja-JP and en-US themselves: the reduced code never hits, the
    supported tags being full tags. *)
Lemma supportsSentenceTranslation_own (languageCode : option jsstring) :
  (∀ code, languageCode = Some code → code ∉ Object_prototype_keys) →
  supportsSentenceTranslation languageCode = supportsLanguage_spec languageCode
  ∧ (supportsSentenceTranslation languageCode = true
     ↔ languageCode = Some ja_JP ∨ languageCode = Some en_US).
Proof.
  intros Hproto. destruct languageCode as [code|].
  2:{ split; [done|]. split; [done|]. intros [?|?]; done. }
  specialize (Hproto code eq_refl).
  unfold supportsSentenceTranslation, supportsLanguage_spec, inSentenceDelimiters.
  rewrite (bool_decide_eq_false_2 (primarySubtag code ∈ _))
    by apply primarySubtag_unsupported.
  rewrite orb_false_r.
  case_language code.
  - split; [done|]. split; [by left | done].
  - split; [done|]. split; [by right | done].
  - rewrite (bool_decide_eq_false_2 (code ∈ Object_prototype_keys)) by done.
    split.
    + symmetry. apply bool_decide_eq_false_2.
      unfold getSupportedLanguageCodes. cbn [SENTENCE_DELIMITERS fmap list_fmap fst].
      rewrite !elem_of_cons, elem_of_nil. intros [->|[->|[]]]; congruence.
    + split; [done|]. intros [?|?]; congruence.
Qed.

(** On an inherited name the key test answers true and the match of the
    specification answers false. *)
Lemma supportsSentenceTranslation_inherited_name (code : jsstring) :
  code ∈ Object_prototype_keys →
  supportsSentenceTranslation (Some code) = true
  ∧ supportsLanguage_spec (Some code) = false.
Proof.
  intros Hin. destruct own_codes_not_inherited as [Hja Hen]. split.
  - unfold supportsSentenceTranslation, inSentenceDelimiters.
    destruct (ownProperty SENTENCE_DELIMITERS code); [done|].
    by apply bool_decide_eq_true_2.
  - unfold supportsLanguage_spec. apply orb_false_iff. split.
    + apply bool_decide_eq_false_2.
      unfold getSupportedLanguageCodes. cbn [SENTENCE_DELIMITERS fmap list_fmap fst].
      rewrite !elem_of_cons, elem_of_nil. intros [->|[->|[]]]; done.
    + apply bool_decide_eq_false_2, primarySubtag_unsupported.
Qed.

(** C10, on the code.  For the language code "constructor", the name of a
    member every object literal inherits, [supportsSentenceTranslation]
    answers true: the [in] operator walks the prototype chain.  Neither the
    code nor its primary subtag is a supported tag, so the
    exact-then-primary-subtag match answers false; the answer true also
    contradicts the function's own return type, and the splitter, which
    trusts it, throws a TypeError for every text.  The names inherited from
    [Object.prototype] are the only codes on which the function departs
    from that match: elsewhere both answer true exactly for ja-JP and
    en-US, and an absent code gives false. *)
Theorem supportsSentenceTranslation_prototype_chain :
  supportsSentenceTranslation (Some (js "constructor")) = true
  ∧ supportsLanguage_spec (Some (js "constructor")) = false
  ∧ (js "constructor" ∉ getSupportedLanguageCodes)
  ∧ (primarySubtag (js "constructor") ∉ getSupportedLanguageCodes)
  ∧ (∀ text, splitIntoSentences text (Some (js "constructor")) = ThrowTypeError)
  ∧ (∀ languageCode,
       supportsSentenceTranslation languageCode = supportsLanguage_spec languageCode
       ↔ (∀ code, languageCode = Some code → code ∉ Object_prototype_keys))
  ∧ (∀ languageCode,
       (∀ code, languageCode = Some code → code ∉ Object_prototype_keys) →
       (supportsSentenceTranslation languageCode = true
        ↔ languageCode = Some ja_JP ∨ languageCode = Some en_US))
  ∧ supportsSentenceTranslation None = false.
Proof.
  split_and!.
  - reflexivity.
  - reflexivity.
  - apply (bool_decide_unpack _). by vm_compute.
  - apply primarySubtag_unsupported.
  - intros text. vm_compute. reflexivity.
  - intros languageCode. split.
    + intros Hagree code -> Hin.
      destruct (supportsSentenceTranslation_inherited_name code Hin) as [Ht Hf].
      congruence.
    + intros Hproto. by apply supportsSentenceTranslation_own.
  - intros languageCode Hproto. by apply supportsSentenceTranslation_own.
  - reflexivity.
Qed.

Lemma splitIntoSentences_untrimmed :
  splitIntoSentences (js " a ") (Some fr_FR) = Return [js " a "]
  ∧ trim (js " a ") = js "a"
  ∧ splitIntoSentences (js " a ") (Some fr_FR) ≠ Return [trim (js " a ")].
Proof. split_and!; [reflexivity | reflexivity | discriminate]. Qed.

(** C6, amended.  When [supportsSentenceTranslation] rejects the language
    code (absent or unsupported), [splitIntoSentences] returns the text
    itself, not trimmed, as the only element, and returns the empty
    sequence when the text is empty or whitespace-only.  "Bonjour. Ça va?"
    with fr-FR comes back whole. *)
Theorem splitIntoSentences_unsupported
    (text : jsstring) (languageCode : option jsstring) :
  supportsSentenceTranslation languageCode = false →
  splitIntoSentences text languageCode = Return (if blank text then [] else [text])
  ∧ splitIntoSentences text_bonjour (Some fr_FR) = Return [text_bonjour].
Proof.
  intros Hs. split; [|reflexivity].
  unfold splitIntoSentences. rewrite Hs. cbn [negb].
  rewrite truthy_trim. by destruct (blank text).
Qed.

Lemma splitIntoSentences_unsupported_witness :
  splitIntoSentences text_bonjour None = Return [text_bonjour]
  ∧ splitIntoSentences text_bonjour (Some fr_FR) = Return [text_bonjour].
Proof. apply (splitIntoSentences_unsupported text_bonjour None). reflexivity. Defined.

Lemma substring_middle (pre span rest : jsstring) :
  substring (pre ++ span ++ rest) (length pre) (length pre + length span) = span.
Proof.
  unfold substring.
  replace (length pre + length span - length pre)%nat with (length span) by lia.
  rewrite drop_app_length. apply take_app_length.
Qed.

Lemma substring_tail (pre span : jsstring) :
  substring (pre ++ span) (length pre) (length (pre ++ span)) = span.
Proof.
  unfold substring. rewrite drop_app_length, length_app.
  apply take_ge. lia.
Qed.

Lemma filter_emit (span : jsstring) (l : list jsstring) :
  filter (λ sentence, nonBlank sentence = true)
         ((if truthy (trim span) then [span] else []) ++ l)
  = emitSpan span ++ filter (λ sentence, nonBlank sentence = true) l.
Proof.
  unfold emitSpan. rewrite truthy_trim.
  destruct (blank span) eqn:Hb; cbn [negb app]; [done|].
  rewrite filter_cons_True; [done|]. by rewrite nonBlank_blank, Hb.
Qed.

(** The split loop followed by the reconstruction loop and the final filter
    is the scan, for any class and from any position: [pre] is the text
    already closed, [span] the pending span. *)
Lemma splitLoop_scan (cls : list N) (rest pre span : jsstring) :
  filter (λ sentence, nonBlank sentence = true)
    (reconstruct
       (splitLoop cls (pre ++ span ++ rest) rest
          (length pre) (length pre + length span)))
  = scanSentences cls span rest.
Proof.
  revert pre span. induction rest as [|c rest IH]; intros pre span.
  - cbn [splitLoop scanSentences reconstruct head orEmpty default].
    rewrite !app_nil_r, substring_tail.
    pose proof (filter_emit span []) as H. by rewrite !app_nil_r in H.
  - cbn [splitLoop scanSentences]. case_bool_decide as Hc.
    + rewrite substring_middle.
      cbn [reconstruct head orEmpty default id].
      rewrite filter_emit. f_equal.
      specialize (IH (pre ++ span ++ [c]) []).
      rewrite !length_app in IH. cbn [length] in IH.
      rewrite Nat.add_0_r in IH.
      replace (S (length pre + length span))
        with (length pre + (length span + 1))%nat by lia.
      rewrite <- IH. do 3 f_equal. by rewrite <- !app_assoc.
    + specialize (IH pre (span ++ [c])).
      rewrite length_app in IH. cbn [length] in IH.
      replace (S (length pre + length span))
        with (length pre + (length span + 1))%nat by lia.
      rewrite <- IH. do 3 f_equal. by rewrite <- !app_assoc.
Qed.

Lemma split_scan (cls : list N) (text : jsstring) :
  filter (λ sentence, nonBlank sentence = true) (reconstruct (split cls text))
  = scanSentences cls [] text.
Proof. exact (splitLoop_scan cls text [] []). Qed.

(** C5. For ja-JP and en-US, [splitIntoSentences] is the scan of the
    specification over that language's terminator characters: a span is
    closed at every terminator with the terminator included, the
    unterminated remainder is emitted last, and blank spans are dropped.
    The two-sentence Japanese text splits into exactly its two sentences. *)
Theorem splitIntoSentences_scan (text languageCode : jsstring) :
  languageCode = ja_JP ∨ languageCode = en_US →
  splitIntoSentences text (Some languageCode)
  = Return (scanSentences (terminatorsOf languageCode) [] text)
  ∧ splitIntoSentences (sentence_konnichiwa ++ sentence_hare) (Some ja_JP)
    = Return [sentence_konnichiwa; sentence_hare].
Proof.
  intros Hlang. split; [|reflexivity].
  destruct Hlang as [-> | ->]; unfold splitIntoSentences;
    cbn [supportsSentenceTranslation]; f_equal; apply split_scan.
Qed.

Lemma splitIntoSentences_scan_witness :
  splitIntoSentences (sentence_konnichiwa ++ sentence_hare) (Some ja_JP)
  = Return (scanSentences (terminatorsOf ja_JP) []
              (sentence_konnichiwa ++ sentence_hare))
  ∧ splitIntoSentences (sentence_konnichiwa ++ sentence_hare) (Some ja_JP)
    = Return [sentence_konnichiwa; sentence_hare].
Proof.
  apply (splitIntoSentences_scan (sentence_konnichiwa ++ sentence_hare) ja_JP).
  left. reflexivity.
Defined.

(** ** The segment reconciler *)

Lemma splitIntoSentences_nonBlank (text : jsstring)
    (languageCode : option jsstring) (sentences : list jsstring) :
  splitIntoSentences text languageCode = Return sentences →
  Forall (λ sentence, nonBlank sentence = true) sentences.
Proof.
  unfold splitIntoSentences.
  destruct (supportsSentenceTranslation languageCode); cbn [negb].
  - destruct (languageCode ≫= ownProperty SENTENCE_DELIMITERS); [|done].
    intros [= <-]. rewrite Forall_forall. intros sentence Hin.
    by apply list_elem_of_filter in Hin as [? _].
  - intros [= <-]. rewrite truthy_trim.
    destruct (blank text) eqn:Hb; cbn [negb]; [constructor|].
    repeat constructor. by rewrite nonBlank_blank, Hb.
Qed.

Lemma updateTranslationSegments_Return (newText : jsstring)
    (languageCode : option jsstring) (existingSegments : list TranslationSegment)
    (newSentences : list jsstring) :
  splitIntoSentences newText languageCode = Return newSentences →
  ∃ updated,
    updateTranslationSegments newText languageCode existingSegments = Return updated
    ∧ length updated = length newSentences
    ∧ ∀ index sentence, newSentences !! index = Some sentence →
        updated !! index = Some
          match existingSegments !! index with
          | None =>
              {| text := sentence; needsTranslation := nonBlank sentence;
                 translation := None; lastTranslatedText := None;
                 requestTimestamp := None |}
          | Some existingSegment =>
              if bool_decide (text existingSegment = sentence)
              then existingSegment
              else
                {| text := sentence; needsTranslation := nonBlank sentence;
                   translation := translation existingSegment;
                   lastTranslatedText := lastTranslatedText existingSegment;
                   requestTimestamp := requestTimestamp existingSegment |}
          end.
Proof.
  intros Hs. unfold updateTranslationSegments. rewrite Hs.
  eexists. split; [reflexivity|]. split; [apply length_imap|].
  intros index sentence Hi. by rewrite list_lookup_imap, Hi.
Qed.

(** C4. If the new text splits into exactly the texts of the previous
    segments, the reconciler returns the previous segments, every record
    unchanged. *)
Theorem updateTranslationSegments_noop (newText : jsstring)
    (languageCode : option jsstring) (prev : list TranslationSegment) :
  splitIntoSentences newText languageCode = Return (text <$> prev) →
  updateTranslationSegments newText languageCode prev = Return prev.
Proof.
  intros Hs.
  destruct (updateTranslationSegments_Return _ _ prev _ Hs)
    as (updated & -> & Hlen & Hat).
  f_equal. apply list_eq. intros index.
  destruct (prev !! index) as [previous|] eqn:Hp.
  - rewrite (Hat index (text previous)) by (by rewrite list_lookup_fmap, Hp).
    rewrite Hp. by rewrite bool_decide_eq_true_2.
  - apply lookup_ge_None. rewrite Hlen, length_fmap. by apply lookup_ge_None.
Qed.

Lemma updateTranslationSegments_noop_witness :
  updateTranslationSegments (js "A. B.") (Some en_US) [segment_A; segment_B']
  = Return [segment_A; segment_B'].
Proof.
  apply (updateTranslationSegments_noop (js "A. B.") (Some en_US) [segment_A; segment_B']).
  reflexivity.
Defined.

Lemma updateTranslationSegments_leading_space :
  updateTranslationSegments (js "A. C.") (Some en_US) [segment_A; segment_B]
  = Return [segment_A; segment_C]
  ∧ text segment_C = js " C."
  ∧ text segment_C ≠ js "C.".
Proof. split_and!; [reflexivity | reflexivity | discriminate]. Qed.

(** Whatever the language code, sentence 1 never gets the text "C.". *)
Lemma updateTranslationSegments_AC_any_language (languageCode : option jsstring)
    (updated : list TranslationSegment) :
  updateTranslationSegments (js "A. C.") languageCode [segment_A; segment_B]
  = Return updated →
  text <$> updated !! 1%nat ≠ Some (js "C.").
Proof.
  unfold updateTranslationSegments, splitIntoSentences.
  destruct languageCode as [code|]; [|by intros [= <-]].
  cbn [supportsSentenceTranslation mbind option_bind]. unfold inSentenceDelimiters.
  case_language code.
  - by intros [= <-].
  - by intros [= <-].
  - destruct (bool_decide (code ∈ Object_prototype_keys)); by intros [= <-].
Qed.

(** C2, amended.  Where the new sentence at an index differs from the text
    of the previous segment at that index, the reconciled segment keeps the
    previous translation fields, has the new sentence as its text and needs
    translation.  For the previous segments "A."/"x" and "B."/"y" and the
    new text "A. C." (en-US), index 0 is untouched and index 1 needs
    translation with the text " C.", the space after the first full stop
    included. *)
Theorem updateTranslationSegments_changed (newText : jsstring)
    (languageCode : option jsstring) (prev : list TranslationSegment)
    (newSentences : list jsstring) (index : nat) (sentence : jsstring)
    (previous : TranslationSegment) :
  splitIntoSentences newText languageCode = Return newSentences →
  newSentences !! index = Some sentence →
  prev !! index = Some previous →
  text previous ≠ sentence →
  (∃ updated,
     updateTranslationSegments newText languageCode prev = Return updated
     ∧ updated !! index = Some
         {| text := sentence; needsTranslation := true;
            translation := translation previous;
            lastTranslatedText := lastTranslatedText previous;
            requestTimestamp := requestTimestamp previous |})
  ∧ updateTranslationSegments (js "A. C.") (Some en_US) [segment_A; segment_B]
    = Return [segment_A; segment_C].
Proof.
  intros Hs Hi Hp Hne. split; [|reflexivity].
  destruct (updateTranslationSegments_Return _ _ prev _ Hs)
    as (updated & Hu & _ & Hat).
  exists updated. split; [done|].
  rewrite (Hat index sentence Hi), Hp.
  rewrite bool_decide_eq_false_2 by done.
  pose proof (splitIntoSentences_nonBlank _ _ _ Hs) as Hnb.
  rewrite Forall_forall in Hnb.
  rewrite (Hnb sentence) by (by eapply list_elem_of_lookup_2). done.
Qed.

Lemma updateTranslationSegments_changed_witness :
  (∃ updated,
     updateTranslationSegments (js "A. C.") (Some en_US) [segment_A; segment_B]
     = Return updated
     ∧ updated !! 1%nat = Some
         {| text := js " C."; needsTranslation := true;
            translation := translation segment_B;
            lastTranslatedText := lastTranslatedText segment_B;
            requestTimestamp := requestTimestamp segment_B |})
  ∧ updateTranslationSegments (js "A. C.") (Some en_US) [segment_A; segment_B]
    = Return [segment_A; segment_C].
Proof.
  apply (updateTranslationSegments_changed (js "A. C.") (Some en_US)
           [segment_A; segment_B] [js "A."; js " C."] 1 (js " C.") segment_B);
    [reflexivity | reflexivity | reflexivity | discriminate].
Defined.

(** ** The timeline merger *)

Lemma sameEntry_segmentKey (segment seg : RealtimeSegment) :
  sameEntry segment seg ↔ segmentKey seg = segmentKey segment.
Proof.
  unfold sameEntry, segmentKey. split; [by intros [-> ->]|]. by intros [= -> ->].
Qed.

Lemma segmentKey_withTranslationSegments (segment : RealtimeSegment)
    (segments : list TranslationSegment) :
  segmentKey (withTranslationSegments segment segments) = segmentKey segment.
Proof. done. Qed.


Lemma list_find_sameEntry_fresh (newSegment : RealtimeSegment)
    (prev : list RealtimeSegment) :
  segmentKey newSegment ∉ segmentKey <$> prev ↔
  list_find (sameEntry newSegment) prev = None.
Proof.
  rewrite list_find_None, Forall_forall. split.
  - intros Hfresh seg Hin Hsame. apply Hfresh.
    apply sameEntry_segmentKey in Hsame. rewrite <- Hsame.
    by apply list_elem_of_fmap_2.
  - intros Hnone Hin. apply list_elem_of_fmap in Hin as (seg & Hkey & Hin).
    apply (Hnone seg Hin). by apply sameEntry_segmentKey.
Qed.

Lemma updateRealtimeSegments_NoDup (newSegment : RealtimeSegment)
    (prev next : list RealtimeSegment) :
  NoDup (segmentKey <$> prev) →
  updateRealtimeSegments newSegment prev = Return next →
  NoDup (segmentKey <$> next).
Proof.
  intros Hnd. unfold updateRealtimeSegments.
  destruct (list_find (sameEntry newSegment) prev) as [[i existing]|] eqn:Hfind.
  - apply list_find_Some in Hfind as (Hi & Hsame & _).
    apply sameEntry_segmentKey in Hsame.
    destruct (updateTranslationSegments _ _ _) as [reconciled|]; [|done].
    intros [= <-]. rewrite list_fmap_insert, segmentKey_withTranslationSegments.
    rewrite list_insert_id; [done|]. rewrite list_lookup_fmap, Hi. cbn. congruence.
  - apply list_find_sameEntry_fresh in Hfind.
    destruct (updateTranslationSegments _ _ _) as [reconciled|]; [|done].
    intros [= <-]. rewrite fmap_app. apply NoDup_app. split_and!; [done| |].
    + intros key Hin Hlast. cbn in Hlast. apply list_elem_of_singleton in Hlast.
      subst key. by rewrite segmentKey_withTranslationSegments in Hin.
    + cbn. apply NoDup_singleton.
Qed.





(** The revision replaced the microphone entry in place and kept the
    state of its unchanged first sentence. *)
Example timeline_three_entries :
  segmentKey <$> timeline_three = [(js "r", microphone); (js "r", screen)]
  ∧ (λ seg, text <$> translationSegments seg) <$> timeline_three
    = [[js "Hello."; js " Bye."]; [js "Hi"]].
Proof. split; reflexivity. Qed.

(** ** The translation dispatcher *)

(** A rewrite of one sentence that keeps the text and the three translation
    fields keeps them at every sentence of the timeline. *)
Lemma updateSentence_fields (segment : RealtimeSegment) (sentenceIndex : nat)
    (f : TranslationSegment → TranslationSegment)
    (prev : list RealtimeSegment) (k j : nat)
    (seg : RealtimeSegment) (ts : TranslationSegment) :
  (∀ ts, text (f ts) = text ts ∧ needsTranslation (f ts) = needsTranslation ts
         ∧ translation (f ts) = translation ts
         ∧ lastTranslatedText (f ts) = lastTranslatedText ts) →
  prev !! k = Some seg →
  translationSegments seg !! j = Some ts →
  ∃ seg' ts',
    updateSentence segment sentenceIndex f prev !! k = Some seg'
    ∧ translationSegments seg' !! j = Some ts'
    ∧ text ts' = text ts ∧ needsTranslation ts' = needsTranslation ts
    ∧ translation ts' = translation ts
    ∧ lastTranslatedText ts' = lastTranslatedText ts.
Proof.
  intros Hf Hk Hj. unfold updateSentence. rewrite list_lookup_fmap, Hk. cbn.
  case_bool_decide.
  - exists seg, ts. by rewrite Hj.
  - eexists _, _. split; [reflexivity|]. cbn [translationSegments withTranslationSegments].
    rewrite list_lookup_imap, Hj. cbn. split; [reflexivity|].
    case_bool_decide; [done|]. apply Hf.
Qed.

Lemma translateSentence_settle_failure (inv : Invocation)
    (collaborator : Settlement) (st : State) :
  collaborator = Rejects ∨ collaborator = Resolves None →
  translateSentence_settle inv collaborator st
  = setConsole
      (console st ++
         match collaborator with
         | Rejects =>
             if truthy (trim (text (inv_translationSegment inv)))
             then [js "Translation failed:"] else []
         | Resolves _ => []
         end) st.
Proof.
  intros [-> | ->]; unfold translateSentence_settle, translateRealtime;
    destruct (truthy (trim (text (inv_translationSegment inv))));
    cbn [negb]; by rewrite ?app_nil_r.
Qed.

(** A resolution to null is handled in silence: the console stays empty,
    where a rejection leaves one entry, and the sentence is still pending. *)
Lemma translateSentence_null_unlogged :
  console (translateSentence ∅ 100 entry_hello 0 sentence_hello (Resolves None)
             state_hello) = []
  ∧ console (translateSentence ∅ 100 entry_hello 0 sentence_hello Rejects
               state_hello) = [js "Translation failed:"]
  ∧ (sentencesToTranslate <$>
       realtimeSegments (translateSentence ∅ 100 entry_hello 0 sentence_hello
                           (Resolves None) state_hello))
    = [[withRequestTimestamp sentence_hello 100]].
Proof. split_and!; vm_compute; reflexivity. Qed.

(** C9, amended.  When the translation call fails (the collaborator's
    promise rejects or resolves to null), the step that handles the settled
    call changes neither the timeline nor the side index nor the session id.
    The console gains the one entry "Translation failed:" when the promise
    rejected, the text of the sentence not being blank, and gains nothing
    when the promise resolved to null.  Over the whole invocation every
    sentence keeps its text, translation, lastTranslatedText and
    needsTranslation, so a sentence that the dispatcher picked is picked
    again by the next tick. *)
Theorem translateSentence_failure
    (inv : Invocation) (st' : State)
    (closure : gmap jsstring Z) (now : Z) (segment : RealtimeSegment)
    (sentenceIndex : nat) (translationSegment : TranslationSegment)
    (collaborator : Settlement) (st : State) :
  collaborator = Rejects ∨ collaborator = Resolves None →
  (realtimeSegments (translateSentence_settle inv collaborator st')
     = realtimeSegments st'
   ∧ latestRequestTimestamps (translateSentence_settle inv collaborator st')
     = latestRequestTimestamps st'
   ∧ currentSessionId (translateSentence_settle inv collaborator st')
     = currentSessionId st'
   ∧ console (translateSentence_settle inv collaborator st')
     = console st' ++
         match collaborator with
         | Rejects =>
             if truthy (trim (text (inv_translationSegment inv)))
             then [js "Translation failed:"] else []
         | Resolves _ => []
         end)
  ∧ (∀ k j seg ts,
       realtimeSegments st !! k = Some seg →
       translationSegments seg !! j = Some ts →
       ∃ seg' ts',
         realtimeSegments
           (translateSentence closure now segment sentenceIndex
              translationSegment collaborator st) !! k = Some seg'
         ∧ translationSegments seg' !! j = Some ts'
         ∧ text ts' = text ts
         ∧ translation ts' = translation ts
         ∧ lastTranslatedText ts' = lastTranslatedText ts
         ∧ needsTranslation ts' = needsTranslation ts
         ∧ (ts ∈ sentencesToTranslate seg → ts' ∈ sentencesToTranslate seg')).
Proof.
  intros Hfail. split.
  - by rewrite translateSentence_settle_failure.
  - intros k j seg ts Hk Hj. unfold translateSentence, translateSentence_issue.
    rewrite translateSentence_settle_failure by done.
    cbn [realtimeSegments setConsole setRealtimeSegments setLatestRequestTimestamps].
    destruct (updateSentence_fields segment sentenceIndex
                (λ ts, withRequestTimestamp ts now) (realtimeSegments st) k j seg ts)
      as (seg' & ts' & Hk' & Hj' & Htext & Hneeds & Htr & Hlast); [done..|].
    exists seg', ts'. split_and!; try done.
    unfold sentencesToTranslate. rewrite !list_elem_of_filter.
    intros [[Hn Ht] _]. split; [|by eapply list_elem_of_lookup_2].
    by rewrite Hneeds, Htext.
Qed.

Lemma translateSentence_failure_witness :
  (realtimeSegments
     (translateSentence_settle
        (dispatchFirst ∅ 100 state_hello).2 Rejects (dispatchFirst ∅ 100 state_hello).1)
     = realtimeSegments (dispatchFirst ∅ 100 state_hello).1
   ∧ latestRequestTimestamps
       (translateSentence_settle
          (dispatchFirst ∅ 100 state_hello).2 Rejects (dispatchFirst ∅ 100 state_hello).1)
     = latestRequestTimestamps (dispatchFirst ∅ 100 state_hello).1
   ∧ currentSessionId
       (translateSentence_settle
          (dispatchFirst ∅ 100 state_hello).2 Rejects (dispatchFirst ∅ 100 state_hello).1)
     = currentSessionId (dispatchFirst ∅ 100 state_hello).1
   ∧ console
       (translateSentence_settle
          (dispatchFirst ∅ 100 state_hello).2 Rejects (dispatchFirst ∅ 100 state_hello).1)
     = [js "Translation failed:"])
  ∧ (∀ k j seg ts,
       realtimeSegments state_hello !! k = Some seg →
       translationSegments seg !! j = Some ts →
       ∃ seg' ts',
         realtimeSegments
           (translateSentence ∅ 100 entry_hello 0 sentence_hello Rejects state_hello)
           !! k = Some seg'
         ∧ translationSegments seg' !! j = Some ts'
         ∧ text ts' = text ts
         ∧ translation ts' = translation ts
         ∧ lastTranslatedText ts' = lastTranslatedText ts
         ∧ needsTranslation ts' = needsTranslation ts
         ∧ (ts ∈ sentencesToTranslate seg → ts' ∈ sentencesToTranslate seg')).
Proof.
  apply (translateSentence_failure
           (dispatchFirst ∅ 100 state_hello).2 (dispatchFirst ∅ 100 state_hello).1
           ∅ 100 entry_hello 0 sentence_hello Rejects state_hello).
  left. reflexivity.
Defined.

(** The gate reads the map the callback closed over.  A map captured no
    later than the request was issued holds no later timestamp for the
    request id, and then the gate is open. *)
Lemma isLatestRequest_closure (closure : gmap jsstring Z)
    (requestId : jsstring) (requestTimestamp : Z) :
  (∀ earlier, closure !! requestId = Some earlier → (earlier ≤ requestTimestamp)%Z) →
  isLatestRequest closure requestId requestTimestamp = true.
Proof.
  intros Hle. unfold isLatestRequest.
  destruct (closure !! requestId) as [earlier|]; [|done].
  apply orb_true_iff. right. apply Z.leb_le. by apply Hle.
Qed.

(** C1, on the code.  R1 is issued at t=100 and R2 at t=200 for the same
    sentence, R2's reply arrives first and R1's last.  Whether the two
    invocations closed over the initial empty map (the callback held by the
    interval) or each over the map current when it was issued, the sentence
    ends with R1's result, although the side index holds 200 for the
    request id when R1's reply is handled. *)
Theorem translateSentence_stale_commit :
  committedTranslation (raceLateR1 ∅ ∅) = Some (js "r1")
  ∧ committedTranslation (raceLateR1 ∅ {[ js "r-0" := 100%Z ]}) = Some (js "r1")
  ∧ raceSideIndexAtLastReply !! js "r-0" = Some 200%Z.
Proof. split_and!; vm_compute; reflexivity. Qed.

(** * Further properties of the code *)

(** ** The splitter: content, shape and count of the sentences *)

Lemma nonWhiteSpace_app (s t : jsstring) :
  nonWhiteSpace (s ++ t) = nonWhiteSpace s ++ nonWhiteSpace t.
Proof. apply filter_app. Qed.

Lemma nonWhiteSpace_nil (s : jsstring) :
  nonWhiteSpace s = [] ↔ blank s = true.
Proof.
  unfold nonWhiteSpace, blank. induction s as [|c s IH]; [done|].
  cbn [forallb]. destruct (isWhiteSpace c) eqn:Hc; cbn [andb].
  - rewrite filter_cons_False by congruence. by rewrite IH.
  - rewrite filter_cons_True by done. split; done.
Qed.

Lemma emitSpan_concat (span : jsstring) :
  concat (emitSpan span) `sublist_of` span
  ∧ nonWhiteSpace (concat (emitSpan span)) = nonWhiteSpace span.
Proof.
  unfold emitSpan. destruct (blank span) eqn:Hb; cbn [concat].
  - split; [apply sublist_nil_l|]. symmetry. by apply nonWhiteSpace_nil.
  - by rewrite app_nil_r.
Qed.

Lemma scanSentences_content (cls : list N) (text span : jsstring) :
  concat (scanSentences cls span text) `sublist_of` span ++ text
  ∧ nonWhiteSpace (concat (scanSentences cls span text))
    = nonWhiteSpace (span ++ text).
Proof.
  revert span. induction text as [|c text IH]; intros span; cbn [scanSentences].
  - rewrite app_nil_r. apply emitSpan_concat.
  - replace (span ++ c :: text) with ((span ++ [c]) ++ text)
      by (by rewrite <- app_assoc).
    case_bool_decide.
    + rewrite concat_app, (nonWhiteSpace_app (concat _)), (nonWhiteSpace_app (span ++ [c])).
      destruct (emitSpan_concat (span ++ [c])) as [Hs ->].
      destruct (IH []) as [Hs' ->]. cbn [app] in *.
      split; [by apply sublist_app | done].
    + apply IH.
Qed.

(** What [splitIntoSentences] computes for a language with own delimiters. *)
Lemma splitIntoSentences_own (text code : jsstring) (delimiters : list jsstring) :
  ownProperty SENTENCE_DELIMITERS code = Some delimiters →
  splitIntoSentences text (Some code)
  = Return (scanSentences (delimiterClass delimiters) [] text).
Proof.
  intros Hown. unfold splitIntoSentences.
  cbn [supportsSentenceTranslation mbind option_bind]. unfold inSentenceDelimiters.
  rewrite Hown. cbn [negb]. by rewrite split_scan.
Qed.

(** The three ways [splitIntoSentences] can go. *)
Lemma splitIntoSentences_cases (text : jsstring) (languageCode : option jsstring) :
  (splitIntoSentences text languageCode
   = Return (if blank text then [] else [text]))
  ∨ (∃ code delimiters, languageCode = Some code
       ∧ ownProperty SENTENCE_DELIMITERS code = Some delimiters
       ∧ delimiterClass delimiters = terminatorsOf code
       ∧ splitIntoSentences text languageCode
         = Return (scanSentences (terminatorsOf code) [] text))
  ∨ splitIntoSentences text languageCode = ThrowTypeError.
Proof.
  destruct languageCode as [code|].
  2:{ left. unfold splitIntoSentences. cbn. rewrite truthy_trim.
      by destruct (blank text). }
  destruct (ownProperty_SENTENCE_DELIMITERS code)
    as [[-> Hown] | [[-> Hown] | (_ & _ & Hown)]].
  - right; left. eexists _, _. split_and!; [done | exact Hown | done |].
    exact (splitIntoSentences_own text ja_JP _ Hown).
  - right; left. eexists _, _. split_and!; [done | exact Hown | done |].
    exact (splitIntoSentences_own text en_US _ Hown).
  - unfold splitIntoSentences.
    cbn [supportsSentenceTranslation mbind option_bind]. unfold inSentenceDelimiters.
    rewrite Hown.
    destruct (bool_decide (code ∈ Object_prototype_keys)); cbn [negb].
    + by right; right.
    + left. rewrite truthy_trim. by destruct (blank text).
Qed.

Lemma splitIntoSentences_nonWhiteSpace (text : jsstring)
    (languageCode : option jsstring) (sentences : list jsstring) :
  splitIntoSentences text languageCode = Return sentences →
  concat sentences `sublist_of` text
  ∧ nonWhiteSpace (concat sentences) = nonWhiteSpace text.
Proof.
  destruct (splitIntoSentences_cases text languageCode)
    as [-> | [(code & delimiters & _ & _ & _ & ->) | ->]]; [| |done].
  - intros [= <-]. apply (emitSpan_concat text).
  - intros [= <-]. apply (scanSentences_content _ text []).
Qed.

(** X1. The sentences, concatenated, are a subsequence of the text, and
    they hold every code unit of the text that is not whitespace: only
    whitespace is ever dropped, and nothing is added or reordered. *)
Theorem splitIntoSentences_keeps_content (text : jsstring)
    (languageCode : option jsstring) (sentences : list jsstring) :
  splitIntoSentences text languageCode = Return sentences →
  concat sentences `sublist_of` text
  ∧ nonWhiteSpace (concat sentences) = nonWhiteSpace text.
Proof. apply splitIntoSentences_nonWhiteSpace. Qed.

Lemma splitIntoSentences_keeps_content_witness :
  concat [js "A."; js " C."] `sublist_of` js "A. C.  "
  ∧ nonWhiteSpace (concat [js "A."; js " C."]) = nonWhiteSpace (js "A. C.  ").
Proof.
  apply (splitIntoSentences_keeps_content (js "A. C.  ") (Some en_US)).
  reflexivity.
Defined.

(** X2. The split is empty exactly for an empty or whitespace-only text. *)
Theorem splitIntoSentences_empty_iff_blank (text : jsstring)
    (languageCode : option jsstring) (sentences : list jsstring) :
  splitIntoSentences text languageCode = Return sentences →
  sentences = [] ↔ blank text = true.
Proof.
  intros Hs.
  destruct (splitIntoSentences_nonWhiteSpace _ _ _ Hs) as [_ Hnw].
  pose proof (splitIntoSentences_nonBlank _ _ _ Hs) as Hnb.
  rewrite <- nonWhiteSpace_nil, <- Hnw. split; [by intros ->|].
  destruct sentences as [|sentence rest]; [done|].
  cbn [concat]. rewrite nonWhiteSpace_app. intros Happ.
  apply app_eq_nil in Happ as [Hnil _]. apply nonWhiteSpace_nil in Hnil.
  apply Forall_cons in Hnb as [Hnb _]. rewrite nonBlank_blank, Hnil in Hnb. done.
Qed.

Lemma splitIntoSentences_empty_iff_blank_witness :
  ([] : list jsstring) = [] ↔ blank (js "  ") = true.
Proof.
  apply (splitIntoSentences_empty_iff_blank (js "  ") (Some ja_JP) []).
  reflexivity.
Defined.

Lemma emitSpan_cases (span : jsstring) :
  emitSpan span = [] ∨ emitSpan span = [span].
Proof. unfold emitSpan. destruct (blank span); [by left | by right]. Qed.

Lemma scanSentences_shape (cls : list N) (text span : jsstring) :
  Forall (λ c, c ∉ cls) span →
  ∃ closed rest,
    scanSentences cls span text = closed ++ rest
    ∧ Forall (terminatedBy cls) closed
    ∧ (rest = [] ∨ ∃ open, rest = [open] ∧ Forall (λ c, c ∉ cls) open).
Proof.
  revert span. induction text as [|c text IH]; intros span Hspan;
    cbn [scanSentences].
  - exists [], (emitSpan span). split_and!; [done | constructor |].
    destruct (emitSpan_cases span) as [-> | ->]; [by left|].
    right. by exists span.
  - case_bool_decide as Hc.
    + destruct (IH [] (Forall_nil_2 _)) as (closed & rest & -> & Hclosed & Hrest).
      exists (emitSpan (span ++ [c]) ++ closed), rest.
      split_and!; [by rewrite app_assoc | | done].
      apply Forall_app. split; [|done].
      destruct (emitSpan_cases (span ++ [c])) as [-> | ->]; [constructor|].
      repeat constructor. by exists span, c.
    + apply IH. apply Forall_app. split; [done|]. by repeat constructor.
Qed.

(** X3. For ja-JP and en-US every sentence but possibly the last is closed
    by a terminator of the language and holds no other terminator; a last
    sentence that is not closed holds no terminator at all. *)
Theorem splitIntoSentences_shape (text code : jsstring)
    (sentences : list jsstring) :
  code = ja_JP ∨ code = en_US →
  splitIntoSentences text (Some code) = Return sentences →
  ∃ closed rest,
    sentences = closed ++ rest
    ∧ Forall (terminatedBy (terminatorsOf code)) closed
    ∧ (rest = [] ∨ ∃ open, rest = [open]
                     ∧ Forall (λ c, c ∉ terminatorsOf code) open).
Proof.
  intros Hcode Hs.
  assert (Hscan : sentences = scanSentences (terminatorsOf code) [] text).
  { destruct Hcode as [-> | ->].
    - rewrite (splitIntoSentences_own text ja_JP _ eq_refl) in Hs. by injection Hs.
    - rewrite (splitIntoSentences_own text en_US _ eq_refl) in Hs. by injection Hs. }
  rewrite Hscan. apply scanSentences_shape. constructor.
Qed.

Lemma splitIntoSentences_shape_witness :
  ∃ closed rest,
    [js "Hi."; js " How are you?"; js " Fine"] = closed ++ rest
    ∧ Forall (terminatedBy (terminatorsOf en_US)) closed
    ∧ (rest = [] ∨ ∃ open, rest = [open]
                     ∧ Forall (λ c, c ∉ terminatorsOf en_US) open).
Proof.
  apply (splitIntoSentences_shape (js "Hi. How are you? Fine") en_US);
    [right; reflexivity | reflexivity].
Defined.

Lemma scanSentences_length (cls : list N) (text span : jsstring) :
  (length (scanSentences cls span text)
   ≤ S (length (filter (λ c, c ∈ cls) text)))%nat.
Proof.
  revert span. induction text as [|c text IH]; intros span; cbn [scanSentences].
  - destruct (emitSpan_cases span) as [-> | ->]; cbn; lia.
  - case_bool_decide as Hc.
    + rewrite filter_cons_True by done. rewrite length_app. cbn [length].
      specialize (IH []).
      destruct (emitSpan_cases (span ++ [c])) as [-> | ->]; cbn [length]; lia.
    + rewrite filter_cons_False by done. apply IH.
Qed.

(** X4. The number of sentences is at most one more than the number of
    terminator characters of the language in the text, and at most one for
    an absent or unsupported language. *)
Theorem countSentences_bound (text : jsstring) (languageCode : option jsstring)
    (n : nat) :
  countSentences text languageCode = Return n →
  (n ≤ S (length (filter (λ c, c ∈ default [] (terminatorsOf <$> languageCode))
                    text)))%nat.
Proof.
  unfold countSentences.
  destruct (splitIntoSentences_cases text languageCode)
    as [-> | [(code & delimiters & -> & _ & _ & ->) | ->]]; [| |done].
  - intros [= <-]. destruct (blank text); cbn; lia.
  - intros [= <-]. apply scanSentences_length.
Qed.

Lemma countSentences_bound_witness :
  (3 ≤ S (length (filter (λ c, c ∈ default [] (terminatorsOf <$> Some en_US))
                    (js "Hi. How are you? Fine"))))%nat.
Proof.
  apply (countSentences_bound (js "Hi. How are you? Fine") (Some en_US) 3).
  reflexivity.
Defined.

Lemma startsWith_singleton (s : jsstring) (c : N) :
  startsWith s [c] = true ↔ head s = Some c.
Proof.
  destruct s as [|d s]; cbn [startsWith head]; [done|].
  replace (startsWith s []) with true by (by destruct s).
  rewrite andb_true_r, N.eqb_eq. split; congruence.
Qed.

Lemma includes_singleton (s : jsstring) (c : N) :
  includes s [c] = true ↔ c ∈ s.
Proof.
  induction s as [|d s IH].
  - cbn. split; [done|]. by intros ?%elem_of_nil.
  - cbn [includes]. rewrite orb_true_iff, IH, startsWith_singleton, elem_of_cons.
    cbn. split; intros [H|H]; auto; left; congruence.
Qed.

Lemma scanSentences_no_terminator (cls : list N) (text span : jsstring) :
  Forall (λ c, c ∉ cls) text →
  scanSentences cls span text = emitSpan (span ++ text).
Proof.
  revert span. induction text as [|c text IH]; intros span Hall;
    cbn [scanSentences].
  - by rewrite app_nil_r.
  - apply Forall_cons in Hall as [Hc Hall].
    rewrite bool_decide_eq_false_2 by done.
    rewrite (IH _ Hall). by rewrite <- app_assoc.
Qed.

Lemma terminatorsOf_delimiters (code : jsstring) (delimiters : list jsstring)
    (c : N) :
  ownProperty SENTENCE_DELIMITERS code = Some delimiters →
  c ∈ terminatorsOf code →
  [c] ∈ delimiters.
Proof.
  intros Hown Hc.
  destruct (ownProperty_SENTENCE_DELIMITERS code)
    as [[-> Ho] | [[-> Ho] | (_ & _ & Ho)]];
    rewrite Ho in Hown; [| |done]; injection Hown as <-.
  - change (c ∈ [0x3002; 0x3F]) in Hc.
    rewrite !elem_of_cons in Hc. rewrite !elem_of_cons.
    destruct Hc as [-> | [-> | Hc]]; auto. by apply elem_of_nil in Hc.
  - change (c ∈ [0x2E; 0x3F]) in Hc.
    rewrite !elem_of_cons in Hc. rewrite !elem_of_cons.
    destruct Hc as [-> | [-> | Hc]]; auto. by apply elem_of_nil in Hc.
Qed.

(** X5. When [containsSentenceDelimiters] answers false, the split is the
    whole text as one sentence, or nothing if the text is blank. *)
Theorem containsSentenceDelimiters_false_split (text : jsstring)
    (languageCode : option jsstring) :
  containsSentenceDelimiters text languageCode = Return false →
  splitIntoSentences text languageCode
  = Return (if blank text then [] else [text]).
Proof.
  destruct (splitIntoSentences_cases text languageCode)
    as [-> | [(code & delimiters & -> & Hown & Hcls & ->) | Hthrow]]; [done| |].
  - unfold containsSentenceDelimiters.
    cbn [supportsSentenceTranslation mbind option_bind]. unfold inSentenceDelimiters.
    rewrite Hown. cbn [negb]. intros [= Hex]. f_equal.
    rewrite scanSentences_no_terminator; [done|].
    rewrite Forall_forall. intros c Hin Hc.
    pose proof (terminatorsOf_delimiters code delimiters c Hown Hc) as Hd.
    assert (Hfound : existsb (λ delimiter, includes text delimiter) delimiters = true).
    { apply existsb_exists. exists [c]. split; [by apply list_elem_of_In|].
      by apply includes_singleton. }
    congruence.
  - unfold splitIntoSentences, containsSentenceDelimiters in *.
    destruct (supportsSentenceTranslation languageCode); cbn [negb] in *; [|done].
    by destruct (languageCode ≫= ownProperty SENTENCE_DELIMITERS).
Qed.

Lemma containsSentenceDelimiters_false_split_witness :
  splitIntoSentences (js "no stop here") (Some en_US)
  = Return (if blank (js "no stop here") then [] else [js "no stop here"]).
Proof.
  apply (containsSentenceDelimiters_false_split (js "no stop here") (Some en_US)).
  reflexivity.
Defined.

(** ** The reconciler: texts, persistence and idempotence *)

Lemma updateTranslationSegments_inv (newText : jsstring)
    (languageCode : option jsstring) (prev updated : list TranslationSegment) :
  updateTranslationSegments newText languageCode prev = Return updated →
  ∃ newSentences,
    splitIntoSentences newText languageCode = Return newSentences
    ∧ length updated = length newSentences
    ∧ ∀ index sentence, newSentences !! index = Some sentence →
        updated !! index = Some
          match prev !! index with
          | None =>
              {| text := sentence; needsTranslation := nonBlank sentence;
                 translation := None; lastTranslatedText := None;
                 requestTimestamp := None |}
          | Some existingSegment =>
              if bool_decide (text existingSegment = sentence)
              then existingSegment
              else
                {| text := sentence; needsTranslation := nonBlank sentence;
                   translation := translation existingSegment;
                   lastTranslatedText := lastTranslatedText existingSegment;
                   requestTimestamp := requestTimestamp existingSegment |}
          end.
Proof.
  intros Hu.
  destruct (splitIntoSentences newText languageCode) as [newSentences|] eqn:Hs.
  2:{ unfold updateTranslationSegments in Hu. by rewrite Hs in Hu. }
  exists newSentences. split; [done|].
  destruct (updateTranslationSegments_Return _ _ prev _ Hs) as (u' & Hu' & Hrest).
  rewrite Hu in Hu'. by injection Hu' as <-.
Qed.

Lemma updateTranslationSegments_texts (newText : jsstring)
    (languageCode : option jsstring) (prev updated : list TranslationSegment) :
  updateTranslationSegments newText languageCode prev = Return updated →
  splitIntoSentences newText languageCode = Return (text <$> updated).
Proof.
  intros Hu.
  destruct (updateTranslationSegments_inv _ _ _ _ Hu)
    as (newSentences & -> & Hlen & Hat).
  f_equal. apply list_eq. intros index. rewrite list_lookup_fmap.
  destruct (newSentences !! index) as [sentence|] eqn:Hi.
  - rewrite (Hat index sentence Hi). cbn.
    destruct (prev !! index) as [existing|]; [|done].
    case_bool_decide as Heq; [by rewrite Heq | done].
  - apply lookup_ge_None in Hi.
    rewrite (proj2 (lookup_ge_None updated index)) by lia. done.
Qed.

(** X6. The texts of the reconciled segments are exactly the sentences the
    new text splits into, in order, whatever the previous segments were:
    previous segments beyond the new sentence count are dropped. *)
Theorem updateTranslationSegments_texts_are_sentences (newText : jsstring)
    (languageCode : option jsstring) (prev updated : list TranslationSegment) :
  updateTranslationSegments newText languageCode prev = Return updated →
  splitIntoSentences newText languageCode = Return (text <$> updated).
Proof. apply updateTranslationSegments_texts. Qed.

Lemma updateTranslationSegments_texts_are_sentences_witness :
  splitIntoSentences (js "A.") (Some en_US)
  = Return (text <$> [segment_A]).
Proof.
  apply (updateTranslationSegments_texts_are_sentences (js "A.") (Some en_US)
           [segment_A; segment_B] [segment_A]).
  reflexivity.
Defined.

Lemma updateTranslationSegments_again (newText : jsstring)
    (languageCode : option jsstring) (prev updated : list TranslationSegment) :
  updateTranslationSegments newText languageCode prev = Return updated →
  updateTranslationSegments newText languageCode updated = Return updated.
Proof.
  intros Hu. pose proof (updateTranslationSegments_texts _ _ _ _ Hu) as Hs.
  destruct (updateTranslationSegments_Return _ _ updated _ Hs)
    as (again & -> & Hlen & Hat).
  f_equal. apply list_eq. intros index.
  destruct (updated !! index) as [segment|] eqn:Hp.
  - rewrite (Hat index (text segment)) by (by rewrite list_lookup_fmap, Hp).
    rewrite Hp. by rewrite bool_decide_eq_true_2.
  - apply lookup_ge_None. rewrite Hlen, length_fmap. by apply lookup_ge_None.
Qed.

(** X7. Reconciling is idempotent: reconciling the same text against the
    result of a reconciliation returns that result unchanged. *)
Theorem updateTranslationSegments_idempotent (newText : jsstring)
    (languageCode : option jsstring) (prev updated : list TranslationSegment) :
  updateTranslationSegments newText languageCode prev = Return updated →
  updateTranslationSegments newText languageCode updated = Return updated.
Proof. apply updateTranslationSegments_again. Qed.

Lemma updateTranslationSegments_idempotent_witness :
  updateTranslationSegments (js "A. C.") (Some en_US) [segment_A; segment_C]
  = Return [segment_A; segment_C].
Proof.
  apply (updateTranslationSegments_idempotent (js "A. C.") (Some en_US)
           [segment_A; segment_B] [segment_A; segment_C]).
  reflexivity.
Defined.

(** X8. Reconciling never discards translation state: at an index the
    previous list has, the translation, lastTranslatedText and
    requestTimestamp are the previous ones, and a segment that needed
    translation still needs it. *)
Theorem updateTranslationSegments_persistence (newText : jsstring)
    (languageCode : option jsstring) (prev updated : list TranslationSegment)
    (index : nat) (previous segment : TranslationSegment) :
  updateTranslationSegments newText languageCode prev = Return updated →
  prev !! index = Some previous →
  updated !! index = Some segment →
  translation segment = translation previous
  ∧ lastTranslatedText segment = lastTranslatedText previous
  ∧ requestTimestamp segment = requestTimestamp previous
  ∧ (needsTranslation previous = true → needsTranslation segment = true).
Proof.
  intros Hu Hp Hi.
  destruct (updateTranslationSegments_inv _ _ _ _ Hu)
    as (newSentences & Hs & Hlen & Hat).
  destruct (newSentences !! index) as [sentence|] eqn:Hsent.
  2:{ apply lookup_ge_None in Hsent. apply lookup_lt_Some in Hi. lia. }
  rewrite (Hat index sentence Hsent), Hp in Hi. injection Hi as <-.
  case_bool_decide; [done|]. cbn. split_and!; try done. intros _.
  pose proof (splitIntoSentences_nonBlank _ _ _ Hs) as Hnb.
  rewrite Forall_forall in Hnb. apply Hnb. by eapply list_elem_of_lookup_2.
Qed.

Lemma updateTranslationSegments_persistence_witness :
  translation segment_C = translation segment_B
  ∧ lastTranslatedText segment_C = lastTranslatedText segment_B
  ∧ requestTimestamp segment_C = requestTimestamp segment_B
  ∧ (needsTranslation segment_B = true → needsTranslation segment_C = true).
Proof.
  apply (updateTranslationSegments_persistence (js "A. C.") (Some en_US)
           [segment_A; segment_B] [segment_A; segment_C] 1);
    reflexivity.
Defined.

(** X9. A sentence at an index the previous list does not reach starts a
    fresh segment: it needs translation and has no translation, no
    lastTranslatedText and no requestTimestamp. *)
Theorem updateTranslationSegments_fresh (newText : jsstring)
    (languageCode : option jsstring) (prev updated : list TranslationSegment)
    (index : nat) (segment : TranslationSegment) :
  updateTranslationSegments newText languageCode prev = Return updated →
  (length prev ≤ index)%nat →
  updated !! index = Some segment →
  segment = {| text := text segment; needsTranslation := true;
               translation := None; lastTranslatedText := None;
               requestTimestamp := None |}.
Proof.
  intros Hu Hlen Hi.
  destruct (updateTranslationSegments_inv _ _ _ _ Hu)
    as (newSentences & Hs & Hlen' & Hat).
  destruct (newSentences !! index) as [sentence|] eqn:Hsent.
  2:{ apply lookup_ge_None in Hsent. apply lookup_lt_Some in Hi. lia. }
  rewrite (Hat index sentence Hsent) in Hi.
  rewrite (proj2 (lookup_ge_None prev index) Hlen) in Hi. injection Hi as <-.
  cbn. f_equal.
  pose proof (splitIntoSentences_nonBlank _ _ _ Hs) as Hnb.
  rewrite Forall_forall in Hnb. apply Hnb. by eapply list_elem_of_lookup_2.
Qed.

Lemma updateTranslationSegments_fresh_witness :
  {| text := js " C."; needsTranslation := true; translation := None;
     lastTranslatedText := None; requestTimestamp := None |}
  = {| text := js " C."; needsTranslation := true;
       translation := None; lastTranslatedText := None;
       requestTimestamp := None |}.
Proof.
  apply (updateTranslationSegments_fresh (js "A. C.") (Some en_US) [segment_A]
           [segment_A;
            {| text := js " C."; needsTranslation := true; translation := None;
               lastTranslatedText := None; requestTimestamp := None |}] 1);
    [reflexivity | cbn; lia | reflexivity].
Defined.

(** ** The timeline: upsert as a keyed store, and what every run keeps *)

Lemma updateRealtimeSegments_inv (newSegment : RealtimeSegment)
    (prev next : list RealtimeSegment) :
  updateRealtimeSegments newSegment prev = Return next →
  ∃ i reconciled,
    next !! i = Some (withTranslationSegments newSegment reconciled)
    ∧ list_find (sameEntry newSegment) next
      = Some (i, withTranslationSegments newSegment reconciled)
    ∧ (∀ j, j ≠ i → (next !! j) = (prev !! j))
    ∧ ((∃ existing,
          prev !! i = Some existing
          ∧ segmentKey existing = segmentKey newSegment
          ∧ updateTranslationSegments (currentTextOf newSegment)
              (languageCode newSegment) (translationSegments existing)
            = Return reconciled
          ∧ next = <[i := withTranslationSegments newSegment reconciled]> prev)
       ∨ (i = length prev
          ∧ (segmentKey newSegment ∉ segmentKey <$> prev)
          ∧ updateTranslationSegments (currentTextOf newSegment)
              (languageCode newSegment) [] = Return reconciled
          ∧ next = prev ++ [withTranslationSegments newSegment reconciled])).
Proof.
  unfold updateRealtimeSegments.
  destruct (list_find (sameEntry newSegment) prev) as [[i existing]|] eqn:Hfind.
  - destruct (updateTranslationSegments _ _ _) as [reconciled|] eqn:Hrec; [|done].
    intros [= <-]. exists i, reconciled.
    apply list_find_Some in Hfind as (Hi & Hsame & Hfirst).
    pose proof (lookup_lt_Some _ _ _ Hi) as Hlt.
    split_and!.
    + by apply list_lookup_insert_eq.
    + apply list_find_Some. split_and!.
      * by apply list_lookup_insert_eq.
      * by apply sameEntry_segmentKey.
      * intros j other Hj Hji. rewrite list_lookup_insert_ne in Hj by lia.
        by eapply Hfirst.
    + intros j Hne. by apply list_lookup_insert_ne.
    + left. exists existing. split_and!; try done. by apply sameEntry_segmentKey.
  - destruct (updateTranslationSegments _ _ _) as [reconciled|] eqn:Hrec; [|done].
    intros [= <-]. exists (length prev), reconciled.
    pose proof Hfind as Hnone. rewrite list_find_None, Forall_forall in Hnone.
    split_and!.
    + by apply list_lookup_middle.
    + apply list_find_Some. split_and!.
      * by apply list_lookup_middle.
      * by apply sameEntry_segmentKey.
      * intros j other Hj Hji. rewrite lookup_app_l in Hj by done.
        apply Hnone. by eapply list_elem_of_lookup_2.
    + intros j Hne. destruct (decide (j < length prev)%nat).
      * by apply lookup_app_l.
      * rewrite (proj2 (lookup_ge_None prev j)) by lia.
        apply lookup_ge_None. rewrite length_app. cbn. lia.
    + right. split_and!; try done. by apply list_find_sameEntry_fresh.
Qed.



(** X11. An upsert is idempotent: repeating the update on the timeline it
    produced returns that timeline. *)
Theorem updateRealtimeSegments_idempotent (newSegment : RealtimeSegment)
    (prev next : list RealtimeSegment) :
  updateRealtimeSegments newSegment prev = Return next →
  updateRealtimeSegments newSegment next = Return next.
Proof.
  intros Hu.
  destruct (updateRealtimeSegments_inv _ _ _ Hu)
    as (i & reconciled & Hi & Hfind & _ & Hcase).
  assert (Hagain : updateTranslationSegments (currentTextOf newSegment)
                     (languageCode newSegment) reconciled = Return reconciled).
  { destruct Hcase as [(existing & _ & _ & Hrec & _) | (_ & _ & Hrec & _)];
      by eapply updateTranslationSegments_again. }
  unfold updateRealtimeSegments. rewrite Hfind.
  cbn [translationSegments withTranslationSegments]. rewrite Hagain. cbn.
  f_equal. by apply list_insert_id.
Qed.

Lemma updateRealtimeSegments_idempotent_witness :
  updateRealtimeSegments entry_hello_revised timeline_three = Return timeline_three.
Proof.
  apply (updateRealtimeSegments_idempotent entry_hello_revised
           [entry_hello; entry_screen_stored] timeline_three).
  reflexivity.
Defined.

Lemma updateSentence_keys (segment : RealtimeSegment) (sentenceIndex : nat)
    (f : TranslationSegment → TranslationSegment) (prev : list RealtimeSegment) :
  segmentKey <$> updateSentence segment sentenceIndex f prev = segmentKey <$> prev.
Proof.
  unfold updateSentence. rewrite <- list_fmap_compose. apply list_fmap_ext.
  intros k seg _. cbn. by case_bool_decide.
Qed.

Lemma imap_texts (f : TranslationSegment → TranslationSegment)
    (sentenceIndex : nat) (segments : list TranslationSegment) :
  (∀ ts, text (f ts) = text ts) →
  text <$> imap (λ index ts, if bool_decide (index ≠ sentenceIndex) then ts else f ts)
             segments
  = text <$> segments.
Proof.
  intros Hf. apply list_eq. intros index.
  rewrite !list_lookup_fmap, list_lookup_imap.
  destruct (segments !! index) as [ts|]; [|done]. cbn.
  case_bool_decide; [done|]. by rewrite Hf.
Qed.

Lemma updateSentence_consistent (segment : RealtimeSegment) (sentenceIndex : nat)
    (f : TranslationSegment → TranslationSegment) (prev : list RealtimeSegment) :
  (∀ ts, text (f ts) = text ts) →
  Forall entryConsistent prev →
  Forall entryConsistent (updateSentence segment sentenceIndex f prev).
Proof.
  intros Hf Hall. unfold updateSentence. apply Forall_fmap.
  eapply Forall_impl; [exact Hall|]. intros seg Hseg. cbn.
  case_bool_decide; [done|]. unfold entryConsistent in *.
  cbn [translationSegments withTranslationSegments].
  by rewrite imap_texts.
Qed.

Lemma updateRealtimeSegments_consistent (newSegment : RealtimeSegment)
    (prev next : list RealtimeSegment) :
  Forall entryConsistent prev →
  updateRealtimeSegments newSegment prev = Return next →
  Forall entryConsistent next.
Proof.
  intros Hall Hu.
  destruct (updateRealtimeSegments_inv _ _ _ Hu)
    as (i & reconciled & _ & _ & _ & Hcase).
  assert (Hnew : entryConsistent (withTranslationSegments newSegment reconciled)).
  { unfold entryConsistent.
    destruct Hcase as [(existing & _ & _ & Hrec & _) | (_ & _ & Hrec & _)];
      by apply updateTranslationSegments_texts in Hrec. }
  destruct Hcase as [(existing & _ & _ & _ & ->) | (_ & _ & _ & ->)].
  - by apply Forall_insert.
  - apply Forall_app. split; [done|]. by repeat constructor.
Qed.

Lemma translateSentence_settle_segments (inv : Invocation)
    (collaborator : Settlement) (st : State) :
  realtimeSegments (translateSentence_settle inv collaborator st)
  = realtimeSegments st
  ∨ ∃ translation,
      realtimeSegments (translateSentence_settle inv collaborator st)
      = updateSentence (inv_segment inv) (inv_sentenceIndex inv)
          (λ ts, withTranslation ts translation (inv_translationSegment inv))
          (realtimeSegments st).
Proof.
  unfold translateSentence_settle.
  destruct (translateRealtime _ _ _) as [[translation|] console']; [|by left].
  destruct (isLatestRequest _ _ _); [|by left].
  right. by exists translation.
Qed.

(** X12. In every state the component reaches from its initial state by
    upserts, translation requests and their replies, recording starts and
    clears: no two timeline entries have the same (resultId, source), the
    texts of every entry's translation segments are the sentences its own
    text splits into under its language code, and the session id is not
    negative. *)
Theorem reachable_timeline_invariant (st : State) :
  rtc step initialState st →
  NoDup (segmentKey <$> realtimeSegments st)
  ∧ Forall entryConsistent (realtimeSegments st)
  ∧ (0 ≤ currentSessionId st)%Z.
Proof.
  intros Hrun.
  apply (rtc_ind_r (R := step)
           (λ st, NoDup (segmentKey <$> realtimeSegments st)
                  ∧ Forall entryConsistent (realtimeSegments st)
                  ∧ (0 ≤ currentSessionId st)%Z) initialState);
    [ | | exact Hrun]; clear st Hrun.
  - split_and!; [constructor | constructor | done].
  - intros st st' _ Hstep (Hnd & Hcons & Hsid).
    destruct Hstep as [newSegment st next Hu | closure now segment i ts st
                      | inv collaborator st | st | st ].
    + cbn. split_and!; [|by eapply updateRealtimeSegments_consistent | done].
      by eapply updateRealtimeSegments_NoDup.
    + unfold translateSentence_issue.
      cbn [fst realtimeSegments currentSessionId setRealtimeSegments
           setLatestRequestTimestamps].
      rewrite updateSentence_keys. split_and!; [done | | done].
      by apply updateSentence_consistent.
    + assert (Hsame : currentSessionId (translateSentence_settle inv collaborator st)
                      = currentSessionId st).
      { unfold translateSentence_settle.
        destruct (translateRealtime _ _ _) as [[translation|] console']; [|done].
        by destruct (isLatestRequest _ _ _). }
      rewrite Hsame.
      destruct (translateSentence_settle_segments inv collaborator st)
        as [-> | (translation & ->)]; [done|].
      rewrite updateSentence_keys. split_and!; [done | | done].
      by apply updateSentence_consistent.
    + cbn. split_and!; [done | done | lia].
    + cbn. split_and!; [constructor | constructor | done].
Qed.

Lemma reachable_timeline_invariant_witness :
  NoDup (segmentKey <$> realtimeSegments
           (setRealtimeSegments (λ _, [entry_screen_stored]) initialState))
  ∧ Forall entryConsistent
      (realtimeSegments
         (setRealtimeSegments (λ _, [entry_screen_stored]) initialState))
  ∧ (0 ≤ currentSessionId
           (setRealtimeSegments (λ _, [entry_screen_stored]) initialState))%Z.
Proof.
  apply (reachable_timeline_invariant
           (setRealtimeSegments (λ _, [entry_screen_stored]) initialState)).
  eapply rtc_l; [|apply rtc_refl].
  apply (step_upsert entry_screen initialState [entry_screen_stored]).
  reflexivity.
Defined.

(** ** The dispatcher: committing a reply, and the request ids *)

(** X13. When a reply with a translation passes the gate, the sentence in
    the timeline gets the translation (none, if the reply is the empty
    string), the text that was sent as lastTranslatedText, and
    needsTranslation exactly when its text is no longer the text that was
    sent; its text and requestTimestamp and all other sentences of the entry
    stay as they are.  With an unchanged text the sentence is not picked by
    the next tick. *)
Theorem translateSentence_settle_commit (inv : Invocation) (reply : jsstring)
    (st : State) (k : nat) (seg : RealtimeSegment) (current : TranslationSegment) :
  truthy (trim (text (inv_translationSegment inv))) = true →
  isLatestRequest (inv_latestRequestTimestamps inv) (inv_requestId inv)
    (inv_requestTimestamp inv) = true →
  realtimeSegments st !! k = Some seg →
  segmentKey seg = segmentKey (inv_segment inv) →
  translationSegments seg !! inv_sentenceIndex inv = Some current →
  ∃ seg' committed,
    realtimeSegments (translateSentence_settle inv (Resolves (Some reply)) st) !! k
    = Some seg'
    ∧ translationSegments seg' !! inv_sentenceIndex inv = Some committed
    ∧ committed
      = {| text := text current;
           needsTranslation :=
             bool_decide (text current ≠ text (inv_translationSegment inv));
           translation := if truthy reply then Some reply else None;
           lastTranslatedText := Some (text (inv_translationSegment inv));
           requestTimestamp := requestTimestamp current |}
    ∧ (∀ j, j ≠ inv_sentenceIndex inv →
         (translationSegments seg' !! j) = (translationSegments seg !! j))
    ∧ (text current = text (inv_translationSegment inv) →
       committed ∉ sentencesToTranslate seg').
Proof.
  intros Htext Hgate Hk Hkey Hcur.
  unfold translateSentence_settle, translateRealtime. rewrite Htext. cbn [negb].
  rewrite Hgate. cbn [realtimeSegments setRealtimeSegments setConsole].
  unfold updateSentence. rewrite list_lookup_fmap, Hk. cbn [fmap option_fmap option_map].
  rewrite bool_decide_eq_false_2
    by (intros Hn; apply Hn; by apply sameEntry_segmentKey).
  eexists _, _. split; [reflexivity|].
  cbn [translationSegments withTranslationSegments].
  split_and!.
  - rewrite list_lookup_imap, Hcur. cbn.
    rewrite bool_decide_eq_false_2 by (intros Hn; by apply Hn). reflexivity.
  - reflexivity.
  - intros j Hj. rewrite list_lookup_imap.
    destruct (translationSegments seg !! j); [|done]. cbn.
    by rewrite bool_decide_eq_true_2.
  - intros Hsame. unfold sentencesToTranslate. rewrite list_elem_of_filter.
    intros [[Hneeds _] _]. cbn in Hneeds.
    by rewrite bool_decide_eq_false_2 in Hneeds by (intros Hn; by apply Hn).
Qed.

Lemma translateSentence_settle_commit_witness :
  ∃ seg' committed,
    realtimeSegments
      (translateSentence_settle (dispatchFirst ∅ 100 state_hello).2
         (Resolves (Some (js "Bonjour.")))
         (dispatchFirst ∅ 100 state_hello).1) !! 0%nat
    = Some seg'
    ∧ translationSegments seg' !! 0%nat = Some committed
    ∧ committed
      = {| text := js "Hello."; needsTranslation := false;
           translation := Some (js "Bonjour.");
           lastTranslatedText := Some (js "Hello.");
           requestTimestamp := Some 100%Z |}
    ∧ (∀ j, j ≠ 0%nat →
         (translationSegments seg' !! j)
         = (translationSegments
              (withTranslationSegments entry_hello
                 [withRequestTimestamp sentence_hello 100]) !! j))
    ∧ (js "Hello." = js "Hello." → committed ∉ sentencesToTranslate seg').
Proof.
  apply (translateSentence_settle_commit (dispatchFirst ∅ 100 state_hello).2
           (js "Bonjour.") (dispatchFirst ∅ 100 state_hello).1 0
           (withTranslationSegments entry_hello
              [withRequestTimestamp sentence_hello 100])
           (withRequestTimestamp sentence_hello 100));
    reflexivity.
Defined.

Lemma digits_no_hyphen (u : Decimal.uint) : 0x2D ∉ digits u.
Proof.
  induction u; cbn [digits]; rewrite ?elem_of_cons;
    try (intros [?|?]; [done | by auto]).
  apply not_elem_of_nil.
Qed.

Lemma digits_inj (u v : Decimal.uint) : digits u = digits v → u = v.
Proof.
  revert v. induction u; intros v; destruct v; cbn [digits];
    intros H; try done; injection H as H; f_equal; by apply IHu.
Qed.

Lemma split_at_first (h : N) (l1 l2 r1 r2 : jsstring) :
  h ∉ l1 → h ∉ l2 → l1 ++ h :: r1 = l2 ++ h :: r2 → l1 = l2 ∧ r1 = r2.
Proof.
  revert l2. induction l1 as [|a l1 IH]; intros [|b l2] H1 H2; cbn.
  - by intros [= ->].
  - intros [= <- _]. exfalso. apply H2. by left.
  - intros [= -> _]. exfalso. apply H1. by left.
  - intros [= -> Hrest]. rewrite not_elem_of_cons in H1, H2.
    destruct (IH l2) as [-> ->]; [tauto..|done|done].
Qed.

Lemma split_at_last (h : N) (l1 l2 r1 r2 : jsstring) :
  h ∉ r1 → h ∉ r2 → l1 ++ h :: r1 = l2 ++ h :: r2 → l1 = l2 ∧ r1 = r2.
Proof.
  intros H1 H2 Heq. apply (f_equal reverse) in Heq.
  rewrite !reverse_app, !reverse_cons, <- !app_assoc in Heq. cbn in Heq.
  apply split_at_first in Heq as [Hr Hl].
  - split.
    + apply (f_equal reverse) in Hl. by rewrite !reverse_involutive in Hl.
    + apply (f_equal reverse) in Hr. by rewrite !reverse_involutive in Hr.
  - by rewrite elem_of_reverse.
  - by rewrite elem_of_reverse.
Qed.

Lemma requestIdOf_eq_iff (segment1 segment2 : RealtimeSegment)
    (sentenceIndex1 sentenceIndex2 : nat) :
  requestIdOf segment1 sentenceIndex1 = requestIdOf segment2 sentenceIndex2
  ↔ resultId segment1 = resultId segment2 ∧ sentenceIndex1 = sentenceIndex2.
Proof.
  unfold requestIdOf. split; [|by intros [-> ->]].
  change (js "-") with [0x2D]. cbn [app]. intros Heq.
  apply split_at_last in Heq as [Hid Hdigits]; try apply digits_no_hyphen.
  split; [done|]. apply digits_inj in Hdigits.
  by apply Unsigned.to_uint_inj.
Qed.

(** X14. The key of the side index identifies the result id and the
    sentence index and nothing else: two requests have the same request id
    exactly when they are for the same result id and the same sentence
    index, whatever the sources of their entries. *)
Theorem requestIdOf_injective (segment1 segment2 : RealtimeSegment)
    (sentenceIndex1 sentenceIndex2 : nat) :
  requestIdOf segment1 sentenceIndex1 = requestIdOf segment2 sentenceIndex2
  ↔ resultId segment1 = resultId segment2 ∧ sentenceIndex1 = sentenceIndex2.
Proof. apply requestIdOf_eq_iff. Qed.

(** ** useRealtimeTranslation: change detection and the model list *)

Lemma trimStart_blank_app (w s : jsstring) :
  blank w = true → trimStart (w ++ s) = trimStart s.
Proof.
  unfold blank. induction w as [|c w IH]; [done|]. cbn [forallb app trimStart].
  intros [Hc Hw]%andb_true_iff. rewrite Hc. by apply IH.
Qed.

Lemma trimStart_nonblank_app (s w : jsstring) :
  blank s = false → trimStart (s ++ w) = trimStart s ++ w.
Proof.
  unfold blank. induction s as [|c s IH]; [done|]. cbn [forallb app trimStart].
  destruct (isWhiteSpace c); [|done]. cbn [andb]. apply IH.
Qed.

Lemma trimEnd_blank_app (s w : jsstring) :
  blank w = true → trimEnd (s ++ w) = trimEnd s.
Proof.
  intros Hw. unfold trimEnd. rewrite reverse_app.
  by rewrite trimStart_blank_app by (by rewrite blank_reverse).
Qed.

Lemma trimEnd_nonblank_app (w s : jsstring) :
  blank s = false → trimEnd (w ++ s) = w ++ trimEnd s.
Proof.
  intros Hs. unfold trimEnd. rewrite reverse_app.
  rewrite trimStart_nonblank_app by (by rewrite blank_reverse).
  by rewrite reverse_app, reverse_involutive.
Qed.

Lemma trimEnd_nil_iff (s : jsstring) : trimEnd s = [] ↔ blank s = true.
Proof.
  unfold trimEnd. rewrite <- (blank_reverse s), <- trimStart_nil.
  split; [|by intros ->].
  intros H. apply (f_equal reverse) in H. by rewrite reverse_involutive in H.
Qed.

(** Surrounding whitespace does not change what [trim] returns. *)
Lemma trim_padded (w1 s w2 : jsstring) :
  blank w1 = true → blank w2 = true → trim (w1 ++ s ++ w2) = trim s.
Proof.
  intros H1 H2. unfold trim. rewrite trimStart_blank_app by done.
  destruct (blank s) eqn:Hs.
  - rewrite trimStart_blank_app by done.
    rewrite (proj2 (trimStart_nil w2) H2), (proj2 (trimStart_nil s) Hs). done.
  - rewrite trimStart_nonblank_app by done. by apply trimEnd_blank_app.
Qed.

Lemma trimStart_split (s : jsstring) :
  ∃ w, s = w ++ trimStart s ∧ blank w = true.
Proof.
  induction s as [|c s (w & Hs & Hw)]; [by exists []|]. cbn [trimStart].
  destruct (isWhiteSpace c) eqn:Hc.
  - exists (c :: w). split; [cbn; congruence|]. unfold blank in *. cbn. by rewrite Hc.
  - by exists [].
Qed.

Lemma trimEnd_split (s : jsstring) :
  ∃ w, s = trimEnd s ++ w ∧ blank w = true.
Proof.
  destruct (trimStart_split (reverse s)) as (w & Hs & Hw).
  exists (reverse w). split; [|by rewrite blank_reverse].
  unfold trimEnd. rewrite <- reverse_app, <- Hs. by rewrite reverse_involutive.
Qed.

Lemma trim_split (s : jsstring) :
  ∃ w1 w2, s = w1 ++ trim s ++ w2 ∧ blank w1 = true ∧ blank w2 = true.
Proof.
  destruct (trimStart_split s) as (w1 & Hs & H1).
  destruct (trimEnd_split (trimStart s)) as (w2 & Ht & H2).
  exists w1, w2. split; [|done]. unfold trim. by rewrite <- Ht.
Qed.

Lemma trim_idempotent (s : jsstring) : trim (trim s) = trim s.
Proof.
  destruct (trim_split s) as (w1 & w2 & Hs & H1 & H2).
  rewrite Hs at 2. symmetry. by apply trim_padded.
Qed.

(** X15. [hasTextChanged] compares texts up to surrounding whitespace:
    padding the current text with whitespace on either side does not change
    its answer, a text has not changed with respect to itself or to its
    trimmed form, and with respect to no text or the empty text it has
    changed exactly when it is not blank. *)
Theorem hasTextChanged_up_to_whitespace (w1 s w2 : jsstring)
    (lastTranslatedText : option jsstring) :
  blank w1 = true → blank w2 = true →
  hasTextChanged (w1 ++ s ++ w2) lastTranslatedText
  = hasTextChanged s lastTranslatedText
  ∧ hasTextChanged s (Some s) = false
  ∧ hasTextChanged s (Some (trim s)) = false
  ∧ hasTextChanged s None = negb (blank s)
  ∧ hasTextChanged s (Some []) = negb (blank s).
Proof.
  intros H1 H2.
  assert (Hempty : ∀ (t : jsstring) (dec : Decision (trim t ≠ trim [])),
            @bool_decide _ dec = negb (blank t)).
  { intros t dec. rewrite <- truthy_trim. revert dec.
    change (trim []) with (@nil N). intros dec.
    destruct (trim t); [by apply bool_decide_eq_false_2; intros Hn|].
    by apply bool_decide_eq_true_2. }
  split_and!.
  - unfold hasTextChanged. by rewrite trim_padded.
  - apply bool_decide_eq_false_2. by intros Hn.
  - unfold hasTextChanged. change (default [] (Some (trim s))) with (trim s).
    rewrite trim_idempotent. apply bool_decide_eq_false_2. by intros Hn.
  - unfold hasTextChanged. cbn [from_option]. apply Hempty.
  - unfold hasTextChanged. cbn [from_option]. apply Hempty.
Qed.

Lemma hasTextChanged_up_to_whitespace_witness :
  hasTextChanged (js "  " ++ js "Hello." ++ js " ") (Some (js "Hello. "))
  = hasTextChanged (js "Hello.") (Some (js "Hello. "))
  ∧ hasTextChanged (js "Hello.") (Some (js "Hello.")) = false
  ∧ hasTextChanged (js "Hello.") (Some (trim (js "Hello."))) = false
  ∧ hasTextChanged (js "Hello.") None = negb (blank (js "Hello."))
  ∧ hasTextChanged (js "Hello.") (Some []) = negb (blank (js "Hello.")).
Proof.
  apply (hasTextChanged_up_to_whitespace (js "  ") (js "Hello.") (js " ")
           (Some (js "Hello. "))); reflexivity.
Defined.

(** X16. [availableModels] holds exactly the ids of the two lists, the
    light models first and in their order, and has no duplicate when
    neither list has one. *)
Theorem availableModels_spec (modelIds lightModelIds : list jsstring) :
  (∀ id, id ∈ availableModels modelIds lightModelIds
         ↔ id ∈ lightModelIds ∨ id ∈ modelIds)
  ∧ take (length lightModelIds) (availableModels modelIds lightModelIds)
    = lightModelIds
  ∧ (NoDup modelIds → NoDup lightModelIds →
     NoDup (availableModels modelIds lightModelIds)).
Proof.
  unfold availableModels. split_and!.
  - intros id. rewrite elem_of_app, list_elem_of_filter.
    destruct (decide (id ∈ lightModelIds)); tauto.
  - by rewrite take_app_length.
  - intros Hm Hl. apply NoDup_app. split_and!; [done| |by apply NoDup_filter].
    intros id Hin [Hnot _]%list_elem_of_filter. done.
Qed.

Lemma availableModels_spec_witness :
  NoDup (availableModels [js "big"; js "small"; js "mid"] [js "small"]).
Proof.
  apply (availableModels_spec [js "big"; js "small"; js "mid"] [js "small"]).
  - apply (bool_decide_unpack _). by vm_compute.
  - apply (bool_decide_unpack _). by vm_compute.
Defined.

(** ** Sorting *)

Section sortBy_facts.
Context {A : Type} (before : A → A → bool).
Hypothesis before_asym : ∀ a b, before a b = true → before b a = false.

Lemma insertSorted_Permutation (x : A) (l : list A) :
  insertSorted before x l ≡ₚ x :: l.
Proof.
  induction l as [|y r IH]; cbn [insertSorted]; [done|].
  destruct (before y x); [|done]. rewrite IH. apply Permutation_swap.
Qed.

Lemma sortBy_Permutation (l : list A) : sortBy before l ≡ₚ l.
Proof.
  induction l as [|x r IH]; cbn [sortBy]; [done|].
  rewrite insertSorted_Permutation. by rewrite IH.
Qed.

Lemma insertSorted_Sorted (x : A) (l : list A) :
  Sorted (notAfter before) l → Sorted (notAfter before) (insertSorted before x l).
Proof.
  induction l as [|y r IH]; cbn [insertSorted]; intros Hs.
  - by repeat constructor.
  - destruct (before y x) eqn:Hyx.
    + apply Sorted_inv in Hs as [Hr Hhd]. constructor; [by apply IH|].
      destruct r as [|z r]; cbn [insertSorted].
      * constructor. by apply before_asym.
      * destruct (before z x); constructor.
        -- by apply HdRel_inv in Hhd.
        -- by apply before_asym.
    + constructor; [done|]. by constructor.
Qed.

Lemma sortBy_Sorted (l : list A) : Sorted (notAfter before) (sortBy before l).
Proof.
  induction l as [|x r IH]; cbn [sortBy]; [constructor|].
  by apply insertSorted_Sorted.
Qed.

(** With a transitive order in which no two elements of the list tie, the
    result depends on the elements only, not on their order. *)
Lemma sortBy_unique `{!Transitive (notAfter before)} (l l' : list A) :
  (∀ a b, a ∈ l → b ∈ l →
          notAfter before a b → notAfter before b a → a = b) →
  l ≡ₚ l' → sortBy before l = sortBy before l'.
Proof.
  intros Hanti Hperm.
  apply (StronglySorted_unique_strong (notAfter before)).
  - intros a b Ha Hb. rewrite sortBy_Permutation in Ha.
    rewrite sortBy_Permutation, <- Hperm in Hb. by apply Hanti.
  - apply Sorted_StronglySorted; [done|]. apply sortBy_Sorted.
  - apply Sorted_StronglySorted; [done|]. apply sortBy_Sorted.
  - by rewrite !sortBy_Permutation.
Qed.

Lemma sortBy_ordered `{!Transitive (notAfter before)} (l : list A)
    (i j : nat) (a b : A) :
  (i < j)%nat → sortBy before l !! i = Some a → sortBy before l !! j = Some b →
  notAfter before a b.
Proof.
  pose proof (Sorted_StronglySorted _ _ (sortBy_Sorted l)) as Hss.
  revert i j. induction Hss as [|x r Hr IH Hall]; intros i j Hij Hi Hj; [done|].
  destruct j as [|j]; [lia|]. cbn in Hj.
  destruct i as [|i]; cbn in Hi.
  - injection Hi as <-. rewrite Forall_forall in Hall. apply Hall.
    by eapply list_elem_of_lookup_2.
  - apply (IH i j); [lia|done..].
Qed.

End sortBy_facts.

Lemma Qltb_lt (a b : Q) : Qltb a b = true ↔ (a < b)%Q.
Proof.
  unfold Qltb. rewrite Qlt_alt. destruct (a ?= b)%Q; split; done.
Qed.

Lemma Qltb_ge (a b : Q) : Qltb b a = false ↔ (a <= b)%Q.
Proof.
  rewrite <- not_true_iff_false, Qltb_lt. split.
  - apply Qnot_lt_le.
  - apply Qle_not_lt.
Qed.

Lemma bySessionThenTime_notAfter (a b : RealtimeSegment) :
  notAfter bySessionThenTime a b
  ↔ (sessionId a < sessionId b)%Z
    ∨ (sessionId a = sessionId b ∧ (startTime a <= startTime b)%Q).
Proof.
  unfold notAfter, bySessionThenTime. case_bool_decide as Hs.
  - rewrite Z.ltb_ge. split; [intros; left; lia | intros [?|[? _]]; [lia|congruence]].
  - rewrite Qltb_ge. split.
    + intros Hle. right. by split.
    + intros [?|[_ ?]]; [lia|done].
Qed.

Lemma bySessionThenTime_asym (a b : RealtimeSegment) :
  bySessionThenTime a b = true → bySessionThenTime b a = false.
Proof.
  intros Hab. apply bySessionThenTime_notAfter.
  unfold bySessionThenTime in Hab. case_bool_decide as Hs.
  - apply Z.ltb_lt in Hab. by left.
  - apply Qltb_lt in Hab. right.
    split; [done|]. by apply Qlt_le_weak.
Qed.

#[global] Instance bySessionThenTime_trans :
  Transitive (notAfter bySessionThenTime).
Proof.
  intros a b c. rewrite !bySessionThenTime_notAfter.
  intros [H1|[H1 H1']] [H2|[H2 H2']]; try (left; lia).
  right. split; [congruence|]. by eapply Qle_trans.
Qed.

(** X17. The rendered timeline is a rearrangement of the entries in which
    sessions come in increasing order of their ids, whatever the start
    times, and the entries of one session come in order of their start
    times. *)
Theorem sortedSegments_order (realtimeSegments : list RealtimeSegment) :
  sortedSegments realtimeSegments ≡ₚ realtimeSegments
  ∧ ∀ i j a b,
      (i < j)%nat →
      sortedSegments realtimeSegments !! i = Some a →
      sortedSegments realtimeSegments !! j = Some b →
      (sessionId a ≤ sessionId b)%Z
      ∧ (sessionId a = sessionId b → (startTime a <= startTime b)%Q).
Proof.
  split; [apply sortBy_Permutation|].
  intros i j a b Hij Hi Hj.
  pose proof (sortBy_ordered bySessionThenTime bySessionThenTime_asym
                realtimeSegments i j a b Hij Hi Hj) as Hord.
  apply bySessionThenTime_notAfter in Hord as [Hlt | [Heq Hle]].
  - split; [lia|]. intros ?. lia.
  - split; [lia|done].
Qed.

(** X18. The rendered order does not depend on the order in which the
    entries sit in the timeline, as long as no two of them have the same
    session id and equal start times. *)
Theorem sortedSegments_order_independent (l l' : list RealtimeSegment) :
  (∀ a b, a ∈ l → b ∈ l → sessionId a = sessionId b →
          (startTime a == startTime b)%Q → a = b) →
  l ≡ₚ l' →
  sortedSegments l = sortedSegments l'.
Proof.
  intros Hdistinct Hperm. unfold sortedSegments.
  apply (sortBy_unique bySessionThenTime bySessionThenTime_asym); [|done].
  intros a b Ha Hb [H1|[H1 H1']]%bySessionThenTime_notAfter
                   [H2|[H2 H2']]%bySessionThenTime_notAfter; try lia.
  apply Hdistinct; [done..|]. by apply Qle_antisym.
Qed.

Lemma sortedSegments_order_independent_witness :
  sortedSegments [entry_later; entry_hello_revised]
  = sortedSegments [entry_hello_revised; entry_later].
Proof.
  apply (sortedSegments_order_independent
           [entry_later; entry_hello_revised]
           [entry_hello_revised; entry_later]).
  - intros a b Ha Hb _ Hq.
    apply list_elem_of_In in Ha, Hb. cbn in Ha, Hb.
    destruct Ha as [<-|[<-|[]]]; destruct Hb as [<-|[<-|[]]];
      try reflexivity; exfalso; revert Hq; vm_compute; discriminate.
  - apply Permutation_swap.
Defined.

(** ** The context generator *)

Lemma ownString_elem_of (o : list (jsstring * jsstring)) (key value : jsstring) :
  ownString o key = Some value → (key, value) ∈ o.
Proof.
  induction o as [|[k v] o IH]; cbn [ownString]; [done|].
  case_bool_decide as Hk.
  - intros [= <-]. subst k. by left.
  - intros H. right. by apply IH.
Qed.

Ltac each_entry H :=
  apply list_elem_of_In in H; cbn in H;
  repeat (destruct H as [H|H]; [injection H as <- <-|]); [..|destruct H].

Lemma LANGUAGE_NAME_MAPPING_truthy (key value : jsstring) :
  ownString LANGUAGE_NAME_MAPPING key = Some value → truthy value = true.
Proof. intros H%ownString_elem_of. each_entry H; reflexivity. Qed.

(** X19. The language name depends only on the primary subtag whenever the
    table lists the primary subtag: the result is then the name listed for
    it, for the bare subtag, for a listed tag of that family and for any
    other tag of it alike. *)
Theorem getLanguageNameFromCode_family (languageCode name : jsstring) :
  ownString LANGUAGE_NAME_MAPPING (primarySubtag languageCode) = Some name →
  getLanguageNameFromCode languageCode = StringValue name.
Proof.
  intros Hfam. pose proof (LANGUAGE_NAME_MAPPING_truthy _ _ Hfam) as Hname.
  unfold getLanguageNameFromCode, getProperty.
  destruct (ownString LANGUAGE_NAME_MAPPING languageCode) as [value|] eqn:Hown.
  - cbn [truthyValue]. rewrite (LANGUAGE_NAME_MAPPING_truthy _ _ Hown).
    f_equal. apply ownString_elem_of in Hown.
    each_entry Hown; vm_compute in Hfam; by injection Hfam as <-.
  - case_bool_decide as Hproto.
    + exfalso. apply list_elem_of_In in Hproto. cbn in Hproto.
      repeat (destruct Hproto as [<-|Hproto]; [by vm_compute in Hfam|]).
      destruct Hproto.
    + cbn [truthyValue]. rewrite Hfam. cbn [truthyValue]. by rewrite Hname.
Qed.

Lemma getLanguageNameFromCode_family_witness :
  getLanguageNameFromCode (js "en-AU") = StringValue (js "English").
Proof.
  apply (getLanguageNameFromCode_family (js "en-AU") (js "English")).
  reflexivity.
Defined.

Lemma slice_all {A} (l : list A) (start : Z) :
  start = 0%Z ∨ (Z.of_nat (length l) ≤ - start)%Z → slice l start = l.
Proof.
  intros Hs. unfold slice.
  replace (Z.to_nat _) with 0%nat; [done|].
  destruct (start <? 0)%Z eqn:Hneg; [apply Z.ltb_lt in Hneg | apply Z.ltb_ge in Hneg]; lia.
Qed.

Lemma slice_last {A} (l : list A) (n : nat) :
  (0 < n ≤ length l)%nat → slice l (- Z.of_nat n) = drop (length l - n) l.
Proof.
  intros Hn. unfold slice. f_equal.
  destruct (- Z.of_nat n <? 0)%Z eqn:Hneg;
    [apply Z.ltb_lt in Hneg | apply Z.ltb_ge in Hneg]; lia.
Qed.

(** X20. [getRecentSegmentsContext] is [extractTranscriptText] whenever the
    window covers all final segments, and also when the window is 0: a
    window of 0 does not give the empty context but the whole one.  With a
    window [n] between 1 and the number of final segments it is the text of
    the last [n] of them in order of start time. *)
Theorem getRecentSegmentsContext_window (segments : list RealtimeSegment)
    (maxSegments : Z) :
  (maxSegments = 0%Z
   ∨ (Z.of_nat (length (filter finalWithText segments)) ≤ maxSegments)%Z →
   getRecentSegmentsContext segments maxSegments = extractTranscriptText segments)
  ∧ (∀ n : nat,
       maxSegments = Z.of_nat n →
       (0 < n ≤ length (filter finalWithText segments))%nat →
       getRecentSegmentsContext segments maxSegments
       = trim (join (js " ")
                 (segmentText <$>
                    drop (length (filter finalWithText segments) - n)
                      (sortBy byStartTime (filter finalWithText segments))))).
Proof.
  assert (Hlen : length (sortBy byStartTime (filter finalWithText segments))
                 = length (filter finalWithText segments)).
  { apply Permutation_length, sortBy_Permutation. }
  unfold getRecentSegmentsContext, extractTranscriptText. split.
  - intros Hw. rewrite slice_all; [done|]. rewrite Hlen. lia.
  - intros n -> Hn. rewrite slice_last by (rewrite Hlen; lia). by rewrite Hlen.
Qed.

Lemma getRecentSegmentsContext_window_witness :
  getRecentSegmentsContext [entry_later; entry_hello; entry_hello_revised] 0
  = extractTranscriptText [entry_later; entry_hello; entry_hello_revised]
  ∧ getRecentSegmentsContext [entry_later; entry_hello; entry_hello_revised] 1
    = js "Thanks.".
Proof.
  destruct (getRecentSegmentsContext_window
              [entry_later; entry_hello; entry_hello_revised] 0) as [H0 _].
  destruct (getRecentSegmentsContext_window
              [entry_later; entry_hello; entry_hello_revised] 1) as [_ H1].
  split.
  - apply H0. left. reflexivity.
  - rewrite (H1 1%nat); [reflexivity | reflexivity |].
    split; [lia | apply (bool_decide_unpack _); by vm_compute].
Defined.

(** X21. Context generation goes ahead exactly when translation is enabled,
    recording is on and the text of the final segments has at least 50 code
    units; segments that are partial or have no transcript never count, so
    a timeline without a final segment never triggers it. *)
Theorem shouldGenerateContext_iff (isTranslationEnabled isRecording : bool)
    (segments : list RealtimeSegment) :
  (shouldGenerateContext isTranslationEnabled isRecording segments = true
   ↔ isTranslationEnabled = true ∧ isRecording = true
     ∧ (50 ≤ length (extractTranscriptText segments))%nat)
  ∧ (Forall (λ segment, ¬ finalWithText segment) segments →
     shouldGenerateContext isTranslationEnabled isRecording segments = false).
Proof.
  assert (Hnone : ∀ l, Forall (λ segment, ¬ finalWithText segment) l →
                       extractTranscriptText l = []).
  { intros l Hl. unfold extractTranscriptText.
    replace (filter finalWithText l) with (@nil RealtimeSegment); [done|].
    symmetry. induction Hl as [|seg l Hseg Hl IH]; [done|].
    by rewrite filter_cons_False. }
  unfold shouldGenerateContext. split.
  - destruct isTranslationEnabled, isRecording; cbn [negb orb];
      try (split; [done | by intros (? & ? & ?)]).
    case_bool_decide as Hempty; cbn [orb].
    + split; [done|]. intros (_ & _ & Hlen).
      destruct segments; [|done]. cbn in Hlen. lia.
    + rewrite bool_decide_eq_true.
      split; [intros H; by split_and! | by intros (_ & _ & ?)].
  - intros Hall. destruct (negb isTranslationEnabled || negb isRecording
                           || bool_decide (length segments = 0%nat)); [done|].
    rewrite (Hnone _ Hall). by apply bool_decide_eq_false_2; cbn; lia.
Qed.

Lemma shouldGenerateContext_iff_witness :
  shouldGenerateContext true true [entry_hello; entry_screen] = false.
Proof.
  apply (shouldGenerateContext_iff true true [entry_hello; entry_screen]).
  repeat constructor; cbn; intros [? ?]; done.
Defined.

Lemma byStartTime_notAfter (a b : RealtimeSegment) :
  notAfter byStartTime a b ↔ (startTime a <= startTime b)%Q.
Proof. apply Qltb_ge. Qed.

Lemma byStartTime_asym (a b : RealtimeSegment) :
  byStartTime a b = true → byStartTime b a = false.
Proof.
  intros Hab%Qltb_lt. apply byStartTime_notAfter. by apply Qlt_le_weak.
Qed.

#[global] Instance byStartTime_trans : Transitive (notAfter byStartTime).
Proof.
  intros a b c. rewrite !byStartTime_notAfter. apply Qle_trans.
Qed.

(** X22. The extracted transcript text does not depend on the order of the
    segments in the timeline when no two final segments have equal start
    times. *)
Theorem extractTranscriptText_order_independent (l l' : list RealtimeSegment) :
  (∀ a b, a ∈ l → b ∈ l → finalWithText a → finalWithText b →
          (startTime a == startTime b)%Q → a = b) →
  l ≡ₚ l' →
  extractTranscriptText l = extractTranscriptText l'.
Proof.
  intros Hdistinct Hperm. unfold extractTranscriptText. do 3 f_equal.
  apply (sortBy_unique byStartTime byStartTime_asym).
  - intros a b [Ha Hfa]%list_elem_of_filter [Hb Hfb]%list_elem_of_filter
      H1%byStartTime_notAfter H2%byStartTime_notAfter.
    apply Hdistinct; [done..|]. by apply Qle_antisym.
  - by rewrite Hperm.
Qed.

Lemma extractTranscriptText_order_independent_witness :
  extractTranscriptText [entry_later; entry_hello_revised]
  = extractTranscriptText [entry_hello_revised; entry_later].
Proof.
  apply (extractTranscriptText_order_independent
           [entry_later; entry_hello_revised]
           [entry_hello_revised; entry_later]).
  - intros a b Ha Hb _ _ Hq.
    apply list_elem_of_In in Ha, Hb. cbn in Ha, Hb.
    destruct Ha as [<-|[<-|[]]]; destruct Hb as [<-|[<-|[]]];
      try reflexivity; exfalso; revert Hq; vm_compute; discriminate.
  - apply Permutation_swap.
Defined.

(** ** The transcription-only timeline *)

Lemma Transcription_sameEntry_segmentKey
    (segment seg : Transcription.TranscriptionSegment) :
  Transcription.sameEntry segment seg
  ↔ Transcription.segmentKey seg = Transcription.segmentKey segment.
Proof.
  unfold Transcription.sameEntry, Transcription.segmentKey.
  split; [by intros [-> ->]|]. by intros [= -> ->].
Qed.

Lemma updateTranscriptionSegments_inv
    (newSegment : Transcription.TranscriptionSegment)
    (prev : list Transcription.TranscriptionSegment) :
  ∃ i,
    Transcription.updateTranscriptionSegments newSegment prev !! i = Some newSegment
    ∧ list_find (Transcription.sameEntry newSegment)
        (Transcription.updateTranscriptionSegments newSegment prev)
      = Some (i, newSegment)
    ∧ (∀ j, j ≠ i →
         (Transcription.updateTranscriptionSegments newSegment prev !! j)
         = (prev !! j))
    ∧ ((∃ existing,
          prev !! i = Some existing
          ∧ Transcription.segmentKey existing = Transcription.segmentKey newSegment
          ∧ Transcription.updateTranscriptionSegments newSegment prev
            = <[i := newSegment]> prev)
       ∨ (i = length prev
          ∧ (Transcription.segmentKey newSegment
               ∉ Transcription.segmentKey <$> prev)
          ∧ Transcription.updateTranscriptionSegments newSegment prev
            = prev ++ [newSegment])).
Proof.
  unfold Transcription.updateTranscriptionSegments.
  destruct (list_find (Transcription.sameEntry newSegment) prev)
    as [[i existing]|] eqn:Hfind.
  - exists i. apply list_find_Some in Hfind as (Hi & Hsame & Hfirst).
    pose proof (lookup_lt_Some _ _ _ Hi) as Hlt.
    split_and!.
    + by apply list_lookup_insert_eq.
    + apply list_find_Some. split_and!.
      * by apply list_lookup_insert_eq.
      * done.
      * intros j other Hj Hji. rewrite list_lookup_insert_ne in Hj by lia.
        by eapply Hfirst.
    + intros j Hne. by apply list_lookup_insert_ne.
    + left. exists existing. split_and!; try done.
      by apply Transcription_sameEntry_segmentKey.
  - exists (length prev).
    pose proof Hfind as Hnone. rewrite list_find_None, Forall_forall in Hnone.
    split_and!.
    + by apply list_lookup_middle.
    + apply list_find_Some. split_and!.
      * by apply list_lookup_middle.
      * done.
      * intros j other Hj Hji. rewrite lookup_app_l in Hj by done.
        apply Hnone. by eapply list_elem_of_lookup_2.
    + intros j Hne. destruct (decide (j < length prev)%nat).
      * by apply lookup_app_l.
      * rewrite (proj2 (lookup_ge_None prev j)) by lia.
        apply lookup_ge_None. rewrite length_app. cbn. lia.
    + right. split_and!; try done.
      intros Hin. apply list_elem_of_fmap in Hin as (seg & Hkey & Hin).
      apply (Hnone seg Hin). by apply Transcription_sameEntry_segmentKey.
Qed.

(** X23. In the transcription-only tab an upsert puts the new segment
    itself at the position of the entry with its (resultId, source), or at
    the end if there is none, leaves every other position as it was, keeps
    the keys distinct if they were, and changes nothing when repeated. *)
Theorem updateTranscriptionSegments_keyed_write
    (newSegment : Transcription.TranscriptionSegment)
    (prev : list Transcription.TranscriptionSegment) :
  (∃ i,
     Transcription.updateTranscriptionSegments newSegment prev !! i
     = Some newSegment
     ∧ (∀ j, j ≠ i →
          (Transcription.updateTranscriptionSegments newSegment prev !! j)
          = (prev !! j))
     ∧ ((∃ existing,
           prev !! i = Some existing
           ∧ Transcription.segmentKey existing
             = Transcription.segmentKey newSegment)
        ∨ (i = length prev
           ∧ (Transcription.segmentKey newSegment
                ∉ Transcription.segmentKey <$> prev))))
  ∧ (NoDup (Transcription.segmentKey <$> prev) →
     NoDup (Transcription.segmentKey <$>
              Transcription.updateTranscriptionSegments newSegment prev))
  ∧ Transcription.updateTranscriptionSegments newSegment
      (Transcription.updateTranscriptionSegments newSegment prev)
    = Transcription.updateTranscriptionSegments newSegment prev.
Proof.
  destruct (updateTranscriptionSegments_inv newSegment prev)
    as (i & Hi & Hfind & Hother & Hcase).
  split_and!.
  - exists i. split_and!; [done..|].
    destruct Hcase as [(existing & He & Hk & _) | (-> & Hf & _)];
      [left; by exists existing | by right].
  - intros Hnd.
    destruct Hcase as [(existing & He & Hk & ->) | (-> & Hf & ->)].
    + rewrite list_fmap_insert. rewrite list_insert_id; [done|].
      rewrite list_lookup_fmap, He. cbn. congruence.
    + rewrite fmap_app. apply NoDup_app. split_and!; [done| |].
      * intros key Hin Hlast. cbn in Hlast.
        apply list_elem_of_singleton in Hlast. by subst key.
      * cbn. apply NoDup_singleton.
  - unfold Transcription.updateTranscriptionSegments at 1. rewrite Hfind.
    by apply list_insert_id.
Qed.

(** X24. The transcription language chosen from the interface language is
    "auto" or a tag whose primary subtag is that interface language. *)
Theorem getTranscriptionLanguageFromSettings_round_trip
    (settingsLang tag : jsstring) :
  Transcription.getTranscriptionLanguageFromSettings settingsLang
  = StringValue tag →
  tag = js "auto" ∨ primarySubtag tag = settingsLang.
Proof.
  unfold Transcription.getTranscriptionLanguageFromSettings, getProperty.
  destruct (ownString Transcription.langMapping settingsLang) as [value|] eqn:Hown.
  - apply ownString_elem_of in Hown. each_entry Hown; intros [= <-]; by right.
  - case_bool_decide; cbn [truthyValue]; [done|]. intros [= <-]. by left.
Qed.

Lemma getTranscriptionLanguageFromSettings_round_trip_witness :
  js "ko-KR" = js "auto" ∨ primarySubtag (js "ko-KR") = js "ko".
Proof.
  apply (getTranscriptionLanguageFromSettings_round_trip (js "ko") (js "ko-KR")).
  reflexivity.
Defined.

(** ** Safe file names *)

Lemma lastIndexOf_None (s : jsstring) (c : N) :
  c ∉ s → lastIndexOf s c = None.
Proof.
  induction s as [|d s IH]; [done|]. rewrite not_elem_of_cons. intros [Hd Hs].
  cbn [lastIndexOf]. rewrite (IH Hs).
  destruct (d =? c) eqn:Heq; [|done]. apply N.eqb_eq in Heq. congruence.
Qed.

Lemma lastIndexOf_last (name ext : jsstring) (c : N) :
  c ∉ ext → lastIndexOf (name ++ c :: ext) c = Some (length name).
Proof.
  intros Hext. induction name as [|d name IH]; cbn [app lastIndexOf length].
  - rewrite (lastIndexOf_None _ _ Hext). by rewrite N.eqb_refl.
  - by rewrite IH.
Qed.

Lemma nameWithoutExt_extension (name ext : jsstring) :
  name ≠ [] → 0x2E ∉ ext → nameWithoutExt (name ++ 0x2E :: ext) = name.
Proof.
  intros Hname Hext. unfold nameWithoutExt. rewrite lastIndexOf_last by done.
  destruct name as [|c name]; [done|]. cbn [length].
  unfold substring. rewrite drop_0, Nat.sub_0_r.
  change (S (length name)) with (length (c :: name)). apply take_app_length.
Qed.

Lemma replaceDisallowed_id (name : jsstring) :
  replaceDisallowed name = name
  ↔ Forall (λ c, isAllowedInName c = true ∨ c = underscore) name.
Proof.
  unfold replaceDisallowed. induction name as [|c name IH].
  - split; [constructor | done].
  - rewrite fmap_cons, Forall_cons, <- IH. destruct (isAllowedInName c) eqn:Hc.
    + split; [intros [= Hr]; split; [by left | done] | intros [_ Hr]; by rewrite Hr].
    + split.
      * intros [= Hu Hr]. split; [by right | done].
      * intros [[?| ->] Hr]; [done|]. by rewrite Hr.
Qed.

(** X25. A name made of allowed characters and underscores only comes back
    unchanged and without a hash.  Otherwise the result is the name with
    each code unit outside the allowed class replaced by an underscore,
    followed by an underscore and the first 8 characters of the hash of the
    whole file name.  In both cases the part before the hash has the length
    of the name without extension and holds allowed characters and
    underscores only. *)
Theorem convertToSafeFilename_spec (md5hex : jsstring → jsstring)
    (filename : jsstring) :
  (Forall (λ c, isAllowedInName c = true ∨ c = underscore)
     (nameWithoutExt filename) →
   convertToSafeFilename md5hex filename = nameWithoutExt filename)
  ∧ (¬ Forall (λ c, isAllowedInName c = true ∨ c = underscore)
         (nameWithoutExt filename) →
     convertToSafeFilename md5hex filename
     = replaceDisallowed (nameWithoutExt filename) ++ [underscore]
       ++ take 8 (md5hex filename))
  ∧ length (replaceDisallowed (nameWithoutExt filename))
    = length (nameWithoutExt filename)
  ∧ Forall (λ c, isAllowedInName c = true ∨ c = underscore)
      (replaceDisallowed (nameWithoutExt filename)).
Proof.
  unfold convertToSafeFilename. split_and!.
  - intros Hall%replaceDisallowed_id. rewrite Hall.
    rewrite bool_decide_eq_false_2 by (by intros Hn). done.
  - intros Hnot. rewrite bool_decide_eq_true_2; [done|].
    by rewrite replaceDisallowed_id.
  - apply length_fmap.
  - unfold replaceDisallowed. apply Forall_fmap, Forall_true. intros c. cbn.
    destruct (isAllowedInName c) eqn:Hc; [by left | by right].
Qed.

Lemma convertToSafeFilename_spec_witness :
  convertToSafeFilename (λ _, js "8d101382e0ffee") (js "report.final.pdf")
  = js "report_final_8d101382".
Proof.
  destruct (convertToSafeFilename_spec (λ _, js "8d101382e0ffee")
              (js "report.final.pdf")) as (_ & H & _).
  rewrite H; [reflexivity|].
  intros Hall. apply (Forall_lookup_1 _ _ 6 0x2E) in Hall; [|reflexivity].
  destruct Hall as [Hall|Hall]; by vm_compute in Hall.
Defined.

(** X26. What follows the last dot is dropped, so a file whose name before
    the last dot is not empty and uses allowed characters and underscores
    only is mapped to that name whatever its extension; a dot at the very
    start does not begin an extension, and a name without a dot is taken
    whole. *)
Theorem convertToSafeFilename_extension (md5hex : jsstring → jsstring)
    (name ext : jsstring) :
  0x2E ∉ ext →
  (name ≠ [] → Forall (λ c, isAllowedInName c = true ∨ c = underscore) name →
   convertToSafeFilename md5hex (name ++ 0x2E :: ext) = name)
  ∧ nameWithoutExt (0x2E :: ext) = 0x2E :: ext
  ∧ nameWithoutExt ext = ext.
Proof.
  intros Hext. split_and!.
  - intros Hname Hall. unfold convertToSafeFilename.
    rewrite nameWithoutExt_extension by done.
    rewrite (proj2 (replaceDisallowed_id name) Hall).
    by rewrite bool_decide_eq_false_2 by (by intros Hn).
  - pose proof (lastIndexOf_last [] ext 0x2E Hext) as Hlast.
    cbn [app length] in Hlast. unfold nameWithoutExt. by rewrite Hlast.
  - unfold nameWithoutExt. by rewrite (lastIndexOf_None ext 0x2E Hext).
Qed.

Lemma convertToSafeFilename_extension_witness :
  (js "report-2024 (final)[v1]" ≠ [] →
   Forall (λ c, isAllowedInName c = true ∨ c = underscore)
     (js "report-2024 (final)[v1]") →
   convertToSafeFilename (λ _, []) (js "report-2024 (final)[v1]" ++ 0x2E :: js "pdf")
   = js "report-2024 (final)[v1]")
  ∧ nameWithoutExt (0x2E :: js "pdf") = 0x2E :: js "pdf"
  ∧ nameWithoutExt (js "pdf") = js "pdf".
Proof.
  apply (convertToSafeFilename_extension (λ _, []) (js "report-2024 (final)[v1]")
           (js "pdf")).
  apply (bool_decide_unpack _). by vm_compute.
Defined.

(** ** Where the splitter throws, and what issuing a request records *)

Lemma splitIntoSentences_throws (text code : jsstring) :
  splitIntoSentences text (Some code) = ThrowTypeError
  ↔ code ∈ Object_prototype_keys.
Proof.
  destruct own_codes_not_inherited as [Hja Hen].
  destruct (ownProperty_SENTENCE_DELIMITERS code)
    as [[-> Hown] | [[-> Hown] | (_ & _ & Hown)]].
  - by rewrite (splitIntoSentences_own text ja_JP _ Hown).
  - by rewrite (splitIntoSentences_own text en_US _ Hown).
  - unfold splitIntoSentences.
    cbn [supportsSentenceTranslation mbind option_bind]. unfold inSentenceDelimiters.
    rewrite Hown. case_bool_decide; cbn [negb]; split; done.
Qed.

(** X27. A TypeError is thrown exactly when the language code is the name
    of a member inherited from [Object.prototype]: then, and only then,
    [splitIntoSentences], [countSentences], [containsSentenceDelimiters] and
    [updateTranslationSegments] throw, and [getSentenceDelimiters] returns
    that member instead of an array or null.  With no language code none of
    them throws. *)
Theorem splitter_TypeError_iff (text code : jsstring)
    (prev : list TranslationSegment) :
  (splitIntoSentences text (Some code) = ThrowTypeError
   ↔ code ∈ Object_prototype_keys)
  ∧ (countSentences text (Some code) = ThrowTypeError
     ↔ code ∈ Object_prototype_keys)
  ∧ (containsSentenceDelimiters text (Some code) = ThrowTypeError
     ↔ code ∈ Object_prototype_keys)
  ∧ (updateTranslationSegments text (Some code) prev = ThrowTypeError
     ↔ code ∈ Object_prototype_keys)
  ∧ (getSentenceDelimiters code = PrototypeMember code
     ↔ code ∈ Object_prototype_keys)
  ∧ splitIntoSentences text None ≠ ThrowTypeError
  ∧ countSentences text None ≠ ThrowTypeError
  ∧ containsSentenceDelimiters text None ≠ ThrowTypeError
  ∧ updateTranslationSegments text None prev ≠ ThrowTypeError.
Proof.
  pose proof (splitIntoSentences_throws text code) as Hsplit.
  split_and!.
  - exact Hsplit.
  - unfold countSentences. rewrite <- Hsplit.
    by destruct (splitIntoSentences text (Some code)).
  - destruct own_codes_not_inherited as [Hja Hen].
    unfold containsSentenceDelimiters.
    cbn [supportsSentenceTranslation mbind option_bind]. unfold inSentenceDelimiters.
    destruct (ownProperty_SENTENCE_DELIMITERS code)
      as [[-> Hown] | [[-> Hown] | (_ & _ & Hown)]]; rewrite Hown; cbn [negb];
      [done | done |].
    case_bool_decide; cbn [negb]; split; done.
  - unfold updateTranslationSegments. rewrite <- Hsplit.
    by destruct (splitIntoSentences text (Some code)).
  - destruct own_codes_not_inherited as [Hja Hen].
    unfold getSentenceDelimiters.
    cbn [supportsSentenceTranslation]. unfold inSentenceDelimiters.
    destruct (ownProperty_SENTENCE_DELIMITERS code)
      as [[-> Hown] | [[-> Hown] | (_ & _ & Hown)]]; rewrite Hown; cbn [negb];
      [done | done |].
    case_bool_decide; cbn [negb]; split; done.
  - unfold splitIntoSentences. cbn. by destruct (truthy _).
  - unfold countSentences, splitIntoSentences. cbn. by destruct (truthy _).
  - done.
  - unfold updateTranslationSegments, splitIntoSentences. cbn.
    by destruct (truthy _).
Qed.

(** X28. Issuing a request records its timestamp in the side index under
    its request id and changes the entry of no other (result id, sentence
    index); against the side index as it then stands the request is the
    latest one.  Once a later request with a larger non-zero timestamp has
    been issued for the same result id and sentence, the earlier request is
    no longer the latest against the side index as it stands. *)
Theorem translateSentence_issue_records
    (closure closure' : gmap jsstring Z) (now now' : Z)
    (segment segment' : RealtimeSegment) (sentenceIndex : nat)
    (translationSegment translationSegment' : TranslationSegment) (st : State) :
  let st1 := (translateSentence_issue closure now segment sentenceIndex
                translationSegment st).1 in
  let st2 := (translateSentence_issue closure' now' segment' sentenceIndex
                translationSegment' st1).1 in
  latestRequestTimestamps st1 !! requestIdOf segment sentenceIndex = Some now
  ∧ (∀ other j,
       resultId other ≠ resultId segment ∨ j ≠ sentenceIndex →
       (latestRequestTimestamps st1 !! requestIdOf other j)
       = (latestRequestTimestamps st !! requestIdOf other j))
  ∧ isLatestRequest (latestRequestTimestamps st1)
      (requestIdOf segment sentenceIndex) now = true
  ∧ (resultId segment' = resultId segment → (now < now')%Z → now' ≠ 0%Z →
     isLatestRequest (latestRequestTimestamps st2)
       (requestIdOf segment sentenceIndex) now = false).
Proof.
  cbn zeta. unfold translateSentence_issue.
  cbn [fst latestRequestTimestamps setRealtimeSegments setLatestRequestTimestamps].
  split_and!.
  - apply lookup_insert_eq.
  - intros other j Hne. apply lookup_insert_ne.
    rewrite requestIdOf_eq_iff. intros [? ?]. destruct Hne; congruence.
  - unfold isLatestRequest. rewrite lookup_insert_eq.
    apply orb_true_iff. right. apply Z.leb_le. lia.
  - intros Hid Hlt Hnz. unfold isLatestRequest.
    replace (requestIdOf segment' sentenceIndex)
      with (requestIdOf segment sentenceIndex)
      by (by apply requestIdOf_eq_iff).
    rewrite lookup_insert_eq. apply orb_false_iff. split.
    + by apply Z.eqb_neq.
    + apply Z.leb_gt. lia.
Qed.

(** ** Instances of the properties above *)

Lemma sortedSegments_order_witness :
  (sessionId entry_hello_revised ≤ sessionId entry_later)%Z
  ∧ (sessionId entry_hello_revised = sessionId entry_later →
     (startTime entry_hello_revised <= startTime entry_later)%Q).
Proof.
  apply (proj2 (sortedSegments_order [entry_later; entry_hello_revised])
           0%nat 1%nat); [lia | reflexivity | reflexivity].
Defined.

Lemma updateTranscriptionSegments_keyed_write_witness :
  NoDup (Transcription.segmentKey <$>
           Transcription.updateTranscriptionSegments transcription_final
             [transcription_partial])
  ∧ Transcription.updateTranscriptionSegments transcription_final
      [transcription_partial]
    = [transcription_final].
Proof.
  destruct (updateTranscriptionSegments_keyed_write transcription_final
              [transcription_partial]) as (_ & Hnd & _).
  split; [|reflexivity]. apply Hnd. cbn. apply NoDup_singleton.
Defined.

Lemma translateSentence_issue_records_witness :
  isLatestRequest
    (latestRequestTimestamps
       (dispatchFirst ∅ 200 (dispatchFirst ∅ 100 state_hello).1).1)
    (requestIdOf entry_hello 0) 100
  = false.
Proof.
  apply (translateSentence_issue_records ∅ ∅ 100 200 entry_hello
           (withTranslationSegments entry_hello
              [withRequestTimestamp sentence_hello 100])
           0 sentence_hello (withRequestTimestamp sentence_hello 100)
           state_hello); [reflexivity | lia | lia].
Defined.
